(** * ParallelWavenet: flow composition and distillation losses

    A shallow embedding of [wavenet/parallel_wavenet.py] (class
    [ParallelWavenet]) and the properties of its affine-flow composition,
    its entropy estimator, its spectral loss and its loss aggregation.

    Tensors hold real numbers: the embedding is the real-number reading of
    the float32 graph.  A tensor keeps the static shape entries the source
    reads through [get_shape()] next to its nested-list contents.  Rounding,
    overflow to infinity and NaN belong to the float32 arithmetic and are
    outside this model.

    The modules the class imports ([masked], [wavenet], [loss_func],
    [utils], the teacher network, the random generator and the STFT of
    TensorFlow) are collaborators; they are the fields of the class
    [Externals] below.  [tf.summary.scalar] only logs and is left out. *)

From Stdlib Require Import String.
From Stdlib Require Import Reals Lra Lia List ZArith Bool Arith.
Import ListNotations.

Open Scope R_scope.

(** ** Errors raised while the graph is built *)

Inductive error : Type :=
| AssertionError
| ZeroDivisionError
| IndexError
| KeyError
| TypeError
| ValueError.

Inductive result (A : Type) : Type :=
| Ok (a : A)
| Err (e : error).

Arguments Ok {A} a.
Arguments Err {A} e.

Definition bind {A B : Type} (r : result A) (k : A -> result B) : result B :=
  match r with
  | Ok a => k a
  | Err e => Err e
  end.

Notation "x <- c ;; k" := (bind c (fun x => k))
  (at level 61, c at next level, right associativity).
Notation "' p <- c ;; k" := (bind c (fun x => let p := x in k))
  (at level 61, p pattern, c at next level, right associativity).

(** ** Tensors *)

Definition matrix : Type := list (list R).
Definition cube : Type := list (list (list R)).

(** A rank-2 tensor [batch, time]; [dim1] is [get_shape().as_list()[1]]. *)
Record tensor2 : Type := T2 { dim1 : nat; rows : matrix }.

(** A rank-3 tensor [batch, time, channel]; [steps] and [channels] are
    entries 1 and 2 of its static shape. *)
Record tensor3 : Type := T3 { steps : nat; channels : nat; cells : cube }.

Definition batch2 (t : tensor2) : nat := List.length (rows t).
Definition batch3 (t : tensor3) : nat := List.length (cells t).

(** The contents agree with the static shape. *)
Definition wf2 (t : tensor2) : Prop :=
  Forall (fun r => List.length r = dim1 t) (rows t).

Definition wf3 (t : tensor3) : Prop :=
  Forall (fun m => List.length m = steps t /\
                   Forall (fun v => List.length v = channels t) m) (cells t).

Fixpoint zipWith {A B C : Type} (f : A -> B -> C) (l : list A) (l' : list B)
  : list C :=
  match l, l' with
  | a :: t, b :: t' => f a b :: zipWith f t t'
  | _, _ => []
  end.

(** Element-wise operations; a binary one keeps the shape of its left
    operand (the operands have equal shapes wherever the source combines
    two tensors). *)
Definition map2d (f : R -> R) (m : matrix) : matrix := map (map f) m.
Definition map3d (f : R -> R) (c : cube) : cube := map (map2d f) c.
Definition zip2d (f : R -> R -> R) (a b : matrix) : matrix :=
  zipWith (zipWith f) a b.
Definition zip3d (f : R -> R -> R) (a b : cube) : cube :=
  zipWith (zip2d f) a b.

Definition t2_map (f : R -> R) (t : tensor2) : tensor2 :=
  T2 (dim1 t) (map2d f (rows t)).
Definition t2_zip (f : R -> R -> R) (a b : tensor2) : tensor2 :=
  T2 (dim1 a) (zip2d f (rows a) (rows b)).
Definition t3_map (f : R -> R) (t : tensor3) : tensor3 :=
  T3 (steps t) (channels t) (map3d f (cells t)).
Definition t3_zip (f : R -> R -> R) (a b : tensor3) : tensor3 :=
  T3 (steps a) (channels a) (zip3d f (cells a) (cells b)).

(** Scalar functions of the graph. *)
Definition sigmoid (x : R) : R := 1 / (1 + exp (- x)).
Definition relu (x : R) : R := Rmax x 0.
Definition softplus (x : R) : R := ln (exp x + 1).
Definition clip_by_value (x lo hi : R) : R := Rmin (Rmax x lo) hi.
Definition squared_difference (x y : R) : R := (x - y) * (x - y).

(** [tf.reduce_mean] over every entry: the sum divided by the number of
    entries. *)
Definition sum_list (l : list R) : R := fold_right Rplus 0 l.
Definition reduce_mean_list (l : list R) : R :=
  sum_list l / INR (List.length l).
Definition reduce_mean2 (m : matrix) : R := reduce_mean_list (concat m).
Definition reduce_mean3 (c : cube) : R := reduce_mean_list (concat (concat c)).

(** ** Hyper-parameters and variable names *)

Record hparams : Type := HParams {
  num_stages : nat;
  num_iaf_layers : list nat;
  filter_length : nat;
  width : nat;
  deconv_width : nat;
  deconv_config : list (Z * Z);      (* [[l1, s1], [l2, s2]] *)
  use_mu_law : bool;
  use_log_scale : bool;
  use_weight_norm : bool;
  power_loss_factor : R;
  num_samples : nat
}.

(** The variable scopes ['iaf_k/...'] under which [masked.conv1d] keeps its
    weights. *)
Inductive conv_name : Type :=
| start_conv (iaf : nat)
| dilated_conv (iaf layer : nat)
| mel_cond (iaf layer : nat)
| res (iaf layer : nat)
| out1 (iaf : nat)
| mel_cond_out1 (iaf : nat)
| out2_mean (iaf : nat)
| out2_scale (iaf : nat).

(** ** Collaborators *)

Class Externals : Type := {
  (** state of the random generator *)
  rng : Type;
  (** [tf.random_uniform([n, len], minval, maxval)]: the entries drawn. *)
  random_uniform : rng -> nat -> nat -> R -> R -> matrix * rng;
  (** entries of [masked.conv1d(x, num_filters, filter_length, dilation,
      name, kernel_initializer, use_weight_norm)] *)
  conv1d_values :
    tensor3 -> nat -> nat -> nat -> conv_name -> option (R * R) -> bool -> cube;
  (** [wavenet._deconv_stack(mel, deconv_width, deconv_config, name,
      use_weight_norm)] *)
  deconv_stack : tensor3 -> nat -> list (Z * Z) -> nat -> bool -> tensor3;
  (** entries of [masked.shift_right(x)] *)
  shift_right_values : tensor3 -> cube;
  (** entries of [wavenet._condition(x, encoding)] *)
  condition_values : tensor3 -> tensor3 -> cube;
  (** [teacher.feed_forward({'wav_scaled': x, 'mel': mel})['out_params']] *)
  teacher_out_params : tensor2 -> tensor3 -> tensor3;
  (** [loss_func.mol_log_probs(te_mol, x, quant_chann)] *)
  mol_log_probs : tensor3 -> tensor2 -> Z -> tensor2;
  (** [tf.contrib.signal.stft(wav, frame_length, frame_step, fft_length,
      pad_end=True)]: complex entries as (re, im) *)
  stft : tensor2 -> nat -> nat -> nat -> list (list (list (R * R)))
}.

(** Instances of the collaborators in which every network outputs a
    constant: [raw_scale] for the scale projection and [raw_mean] for every
    other convolution; the uniform draw sits at the fraction [u] of its
    range. *)
Definition const_cube (b t c : nat) (v : R) : cube :=
  repeat (repeat (repeat v c) t) b.

Definition const_externals (u raw_mean raw_scale : R) : Externals := {|
  rng := unit;
  random_uniform := fun st n len lo hi =>
    (repeat (repeat (lo + (hi - lo) * u) len) n, st);
  conv1d_values := fun x nf _ _ name _ _ =>
    const_cube (batch3 x) (steps x) nf
      match name with out2_scale _ => raw_scale | _ => raw_mean end;
  deconv_stack := fun mel _ _ _ _ => mel;
  shift_right_values := fun x => cells x;
  condition_values := fun x _ => cells x;
  teacher_out_params := fun _ mel => mel;
  mol_log_probs := fun _ x _ => x;
  stft := fun w _ _ _ => map (fun r => [map (fun v => (v, 0)) r]) (rows w)
|}.

Section Model.

Context {E : Externals}.

(** Modelled from the spec: [masked.conv1d] is not part of the sources; a
    causal convolution returns [num_filters] channels over the batch and
    time axes of its input (section 6, [causal_conv]). *)
Definition conv1d (x : tensor3) (num_filters filter_length dilation : nat)
  (name : conv_name) (kernel_initializer : option (R * R))
  (use_weight_norm : bool) : tensor3 :=
  T3 (steps x) num_filters
     (conv1d_values x num_filters filter_length dilation name
        kernel_initializer use_weight_norm).

(** Modelled from the spec: [masked.shift_right] is not part of the
    sources; it shifts the sequence one step in time and keeps its shape
    (section 6, [shift_right]). *)
Definition shift_right (x : tensor3) : tensor3 :=
  T3 (steps x) (channels x) (shift_right_values x).

(** Modelled from the spec: [wavenet._condition] is not part of the
    sources; it combines the encoding into [x] and keeps the shape of [x]
    (section 4.1, step 3). *)
Definition _condition (x encoding : tensor3) : tensor3 :=
  T3 (steps x) (channels x) (condition_values x encoding).

(** [_logistic_0_1]: logistic(0, 1) random variables. *)
Definition _logistic_0_1 (st : rng) (batch_size len : nat) : tensor2 * rng :=
  let '(ru, st') :=
    random_uniform st batch_size len (1 / 100000) (1 - 1 / 100000) in
  let rl := zip2d Rminus (map2d ln ru) (map2d ln (map2d (fun u => 1 - u) ru)) in
  (T2 len rl, st').

(** [final_kernel_mean]: mean of the initial kernel of the scale
    projection. *)
Definition final_kernel_mean (hp : hparams) : R :=
  if use_mu_law hp
  then (if use_log_scale hp then - (1 / 100) else - (1 / 1000))
  else (if use_log_scale hp then - (3 / 100) else - (1 / 100)).

(** ** One affine stage: [_create_iaf] *)

Record iaf_dict : Type := IafDict {
  iaf_x : tensor3;
  iaf_mean : tensor3;
  iaf_scale : tensor3;
  iaf_log_scale : tensor3
}.

(** [2 ** (i % num_stages)] *)
Definition layer_dilation (i num_stages : nat) : result nat :=
  match num_stages with
  | O => Err ZeroDivisionError
  | S _ => Ok (2 ^ (i mod num_stages))%nat
  end.

(** [d[:, :, :m]] and [d[:, :, m:]] *)
Definition slice_to (m : nat) (d : tensor3) : tensor3 :=
  T3 (steps d) m (map (map (firstn m)) (cells d)).
Definition slice_from (m : nat) (d : tensor3) : tensor3 :=
  T3 (steps d) (channels d - m) (map (map (skipn m)) (cells d)).

(** The gated unit of one layer, from the assertion to the product. *)
Definition gated_unit (d : tensor3) : result tensor3 :=
  if Nat.eqb (channels d mod 2) 0 then
    let m := (channels d / 2)%nat in
    let d_sigmoid := t3_map sigmoid (slice_to m d) in
    let d_tanh := t3_map tanh (slice_from m d) in
    Ok (t3_zip Rmult d_sigmoid d_tanh)
  else Err AssertionError.

(** The body of the loop [for i in range(num_layers)]. *)
Definition iaf_layer (hp : hparams) (iaf_idx : nat) (mel_en l : tensor3)
  (i : nat) : result tensor3 :=
  let gate_width := width hp in
  dilation <- layer_dilation i (num_stages hp) ;;
  let d := conv1d l gate_width (filter_length hp) dilation
             (dilated_conv (iaf_idx + 1) (i + 1)) None (use_weight_norm hp) in
  let c := conv1d mel_en gate_width 1 1
             (mel_cond (iaf_idx + 1) (i + 1)) None (use_weight_norm hp) in
  let d := _condition d c in
  d <- gated_unit d ;;
  Ok (t3_zip Rplus l
        (conv1d d (width hp) 1 1 (res (iaf_idx + 1) (i + 1)) None
           (use_weight_norm hp))).

Fixpoint iaf_layers (hp : hparams) (iaf_idx : nat) (mel_en l : tensor3)
  (range : list nat) : result tensor3 :=
  match range with
  | [] => Ok l
  | i :: range' =>
      l' <- iaf_layer hp iaf_idx mel_en l i ;;
      iaf_layers hp iaf_idx mel_en l' range'
  end.

(** The two parameterizations of the scale. *)
Definition scale_of (log_mode : bool) (scale_params : tensor3)
  : tensor3 * tensor3 :=
  if log_mode then
    let log_scale := t3_map (fun v => clip_by_value v (- 9) 7) scale_params in
    let scale := t3_map exp log_scale in
    (scale, log_scale)
  else
    let scale_params := t3_map softplus scale_params in
    let scale :=
      t3_map (fun v => clip_by_value v (exp (- 9)) (exp 7)) scale_params in
    let log_scale := t3_map ln scale in
    (scale, log_scale).

Definition _create_iaf (hp : hparams) (mel x : tensor3) (iaf_idx : nat)
  : result iaf_dict :=
  match nth_error (num_iaf_layers hp) iaf_idx with
  | None => Err IndexError
  | Some num_layers =>
      let out_width := 2%nat in
      let fk_mean := final_kernel_mean hp in
      let mel_en := deconv_stack mel (deconv_width hp) (deconv_config hp)
                      (iaf_idx + 1) (use_weight_norm hp) in
      let l := shift_right x in
      let l := conv1d l (width hp) (filter_length hp) 1
                 (start_conv (iaf_idx + 1)) None (use_weight_norm hp) in
      l <- iaf_layers hp iaf_idx mel_en l (seq 0 num_layers) ;;
      let l := t3_map relu l in
      let l := conv1d l (width hp) 1 1 (out1 (iaf_idx + 1)) None
                 (use_weight_norm hp) in
      let c := conv1d mel_en (width hp) 1 1 (mel_cond_out1 (iaf_idx + 1)) None
                 (use_weight_norm hp) in
      let l := _condition l c in
      let l := t3_map relu l in
      let mean := conv1d l (out_width / 2) 1 1 (out2_mean (iaf_idx + 1))
                    (Some (0, 1 / 100)) (use_weight_norm hp) in
      let scale_params :=
        conv1d l (out_width / 2) 1 1 (out2_scale (iaf_idx + 1))
          (Some (fk_mean, 1 / 100)) (use_weight_norm hp) in
      let '(scale, log_scale) := scale_of (use_log_scale hp) scale_params in
      let new_x := t3_zip Rplus (t3_zip Rmult x scale) mean in
      Ok (IafDict new_x mean scale log_scale)
  end.

(** ** The composed flow: [feed_forward] *)

(** The accumulators start as the Python floats [0., 1., 0.] and become
    tensors at the first stage. *)
Inductive acc : Type :=
| Sc (r : R)
| Tn (t : tensor3).

Definition acc_zip (f : R -> R -> R) (a : acc) (t : tensor3) : tensor3 :=
  match a with
  | Sc r => t3_map (f r) t
  | Tn a' => t3_zip f a' t
  end.

(** [tf.minimum(a, bound)] *)
Definition acc_minimum (a : acc) (bound : R) : acc :=
  match a with
  | Sc r => Sc (Rmin r bound)
  | Tn t => Tn (t3_map (fun v => Rmin v bound) t)
  end.

(** [tf.expand_dims(x, axis=2)] *)
Definition expand_dims (x : tensor2) : tensor3 :=
  T3 (dim1 x) 1 (map (map (fun v => [v])) (rows x)).

(** [tf.squeeze(a, axis=2)]: the axis must exist and have size 1. *)
Definition squeeze (a : acc) : result tensor2 :=
  match a with
  | Sc _ => Err ValueError
  | Tn t =>
      if Nat.eqb (channels t) 1
      then Ok (T2 (steps t) (map (@concat R) (cells t)))
      else Err ValueError
  end.

(** [np.prod] over 64-bit integers. *)
Definition wrap64 (z : Z) : Z :=
  ((z + 2 ^ 63) mod 2 ^ 64 - 2 ^ 63)%Z.
Definition np_prod (l : list Z) : Z :=
  fold_left (fun p s => wrap64 (p * s)%Z) l 1%Z.

(** [2 ** (num_stages - 1)]; an integer only when [num_stages >= 1]. *)
Definition max_dilation_of (num_stages : nat) : result Z :=
  match num_stages with
  | O => Err TypeError
  | S n => Ok (2 ^ Z.of_nat n)%Z
  end.

(** The length of the noise sample drawn by [feed_forward]. *)
Definition noise_length (hp : hparams) (num_frames : nat) : result Z :=
  let frame_shift := np_prod (map snd (deconv_config hp)) in
  max_dilation <- max_dilation_of (num_stages hp) ;;
  Ok ((Z.of_nat num_frames * frame_shift / max_dilation) * max_dilation)%Z.

Record flow_state : Type := FlowState {
  fs_x : tensor3;
  fs_mean_tot : acc;
  fs_scale_tot : acc;
  fs_log_scale_tot : acc
}.

(** The body of the loop [for iaf_idx in range(num_iafs)]. *)
Definition flow_step (hp : hparams) (mel : tensor3) (s : flow_state)
  (iaf_idx : nat) : result flow_state :=
  d <- _create_iaf hp mel (fs_x s) iaf_idx ;;
  let scale := iaf_scale d in
  let log_scale := iaf_log_scale d in
  let mean_tot :=
    t3_zip Rplus (iaf_mean d) (acc_zip Rmult (fs_mean_tot s) scale) in
  let scale_tot := acc_zip Rmult (fs_scale_tot s) scale in
  let log_scale_tot := acc_zip Rplus (fs_log_scale_tot s) log_scale in
  Ok (FlowState (iaf_x d) (Tn mean_tot) (Tn scale_tot) (Tn log_scale_tot)).

Fixpoint flow_loop (hp : hparams) (mel : tensor3) (s : flow_state)
  (range : list nat) : result flow_state :=
  match range with
  | [] => Ok s
  | iaf_idx :: range' =>
      s' <- flow_step hp mel s iaf_idx ;;
      flow_loop hp mel s' range'
  end.

Record ff_result : Type := FFResult {
  out_x : tensor2;
  out_mean_tot : tensor2;
  out_scale_tot : tensor2;
  out_log_scale_tot : tensor2;
  out_rand_input : tensor2
}.

(** The stage loop of [feed_forward], started on the noise [x]. *)
Definition run_stages (hp : hparams) (mel : tensor3) (x : tensor2)
  : result flow_state :=
  let num_iafs := List.length (num_iaf_layers hp) in
  flow_loop hp mel (FlowState (expand_dims x) (Sc 0) (Sc 1) (Sc 0))
    (seq 0 num_iafs).

(** What [feed_forward] returns from the final loop state. *)
Definition finish (x : tensor2) (s : flow_state) : result ff_result :=
  mean_tot <- squeeze (fs_mean_tot s) ;;
  scale_tot <- squeeze (acc_minimum (fs_scale_tot s) (exp 7)) ;;
  log_scale_tot <- squeeze (acc_minimum (fs_log_scale_tot s) 7) ;;
  let new_x := t2_zip Rplus (t2_zip Rmult x scale_tot) mean_tot in
  Ok (FFResult new_x mean_tot scale_tot log_scale_tot x).

Definition feed_forward (hp : hparams) (st : rng) (mel : tensor3)
  : result (ff_result * rng) :=
  let batch_size := batch3 mel in
  let num_frames := steps mel in
  len <- noise_length hp num_frames ;;
  if (len <? 0)%Z then Err ValueError else
  let '(x, st') := _logistic_0_1 st batch_size (Z.to_nat len) in
  s <- run_stages hp mel x ;;
  r <- finish x s ;;
  Ok (r, st').

(** ** The entropy estimator: [kl_loss] *)

(** What the loss functions read from the dictionary of a forward pass. *)
Record ff_dict : Type := FFDict {
  ff_mel : tensor3;
  ff_wav : tensor2;
  ff_x : tensor2;
  ff_mean_tot : tensor2;
  ff_scale_tot : tensor2;
  ff_log_scale_tot : tensor2
}.

(** A dictionary of named scalars, in insertion order. *)
Definition dict : Type := list (String.string * R).

Fixpoint dict_set (k : String.string) (v : R) (d : dict) : dict :=
  match d with
  | [] => [(k, v)]
  | (k', v') :: d' =>
      if String.eqb k k' then (k, v) :: d' else (k', v') :: dict_set k v d'
  end.

Definition dict_update (d d' : dict) : dict :=
  fold_left (fun a kv => dict_set (fst kv) (snd kv) a) d' d.

Fixpoint dict_get (k : String.string) (d : dict) : option R :=
  match d with
  | [] => None
  | (k', v) :: d' => if String.eqb k k' then Some v else dict_get k d'
  end.

(** Modelled from the spec: [utils.tf_repeat] is not part of the sources;
    with repeats [[n, 1]] (or [[n, 1, 1]]) it repeats every batch row [n]
    times in place, so that the [n] repetitions of a row are adjacent
    (section 4.3, steps 1 and 2). *)
Definition tf_repeat {A : Type} (l : list A) (n : nat) : list A :=
  flat_map (fun r => repeat r n) l.

Definition tf_repeat2 (t : tensor2) (n : nat) : tensor2 :=
  T2 (dim1 t) (tf_repeat (rows t) n).
Definition tf_repeat3 (t : tensor3) (n : nat) : tensor3 :=
  T3 (steps t) (channels t) (tf_repeat (cells t) n).

(** [tf.reshape(t, [b, s, len])] of a rank-2 tensor. *)
Fixpoint chunks {A : Type} (b s : nat) (l : list A) : list (list A) :=
  match b with
  | O => []
  | S b' => firstn s l :: chunks b' s (skipn s l)
  end.

Definition reshape3 (t : tensor2) (b s len : nat) : result tensor3 :=
  if Nat.eqb (batch2 t * dim1 t) (b * s * len)
  then Ok (T3 s len (chunks b s (rows t)))
  else Err ValueError.

(** [tf.reduce_mean(t, axis=1)] of a rank-3 tensor. *)
Definition col_sum (len : nat) (m : matrix) : list R :=
  fold_right (zipWith Rplus) (repeat 0 len) m.

Definition reduce_mean_axis1 (t : tensor3) : tensor2 :=
  T2 (channels t)
     (map (fun m => map (fun v => v / INR (steps t)) (col_sum (channels t) m))
        (cells t)).

Definition quant_chann (hp : hparams) : Z :=
  if use_mu_law hp then (2 ^ 8)%Z else (2 ^ 16)%Z.

(** The Monte-Carlo samples [x_xp] of [kl_loss], from the noise [rl]. *)
Definition student_samples (rl mean scale : tensor2) (num_samples : nat)
  : tensor2 :=
  let mean := tf_repeat2 mean num_samples in
  let scale := tf_repeat2 scale num_samples in
  t2_zip Rplus (t2_zip Rmult rl scale) mean.

(** The teacher log-likelihood [log_te_probs] of the samples [x_xp]. *)
Definition teacher_log_probs (hp : hparams) (ff : ff_dict) (x_xp : tensor2)
  (num_samples : nat) : tensor2 :=
  let te_mol := teacher_out_params (ff_x ff) (ff_mel ff) in
  let te_mol := tf_repeat3 te_mol num_samples in
  mol_log_probs te_mol x_xp (quant_chann hp).

Definition kl_loss (hp : hparams) (st : rng) (ff : ff_dict) (num_samples : nat)
  : result (dict * rng) :=
  let x := ff_x ff in
  let log_scale := ff_log_scale_tot ff in
  let batch_size := batch2 x in
  let len := dim1 x in
  let '(rl, st') := _logistic_0_1 st (batch_size * num_samples) len in
  let x_xp :=
    student_samples rl (ff_mean_tot ff) (ff_scale_tot ff) num_samples in
  let log_te_probs := teacher_log_probs hp ff x_xp num_samples in
  r <- reshape3 log_te_probs batch_size num_samples len ;;
  let H_Ps_Pt_bl := t2_map Ropp (reduce_mean_axis1 r) in
  let H_Ps := reduce_mean2 (rows log_scale) + 2 in
  let H_Ps_Pt := reduce_mean2 (rows H_Ps_Pt_bl) in
  let kl_loss := H_Ps_Pt - H_Ps in
  Ok ([("kl_loss"%string, kl_loss); ("H_Ps"%string, H_Ps);
       ("H_Ps_Pt"%string, H_Ps_Pt)], st').

(** ** The spectral loss: [_trim] and [power_loss] *)

(** [tf.slice(x, [0, start], [-1, size])]; a size of [-1] takes every
    remaining column. *)
Definition tf_slice_cols (x : tensor2) (start size : Z) : result tensor2 :=
  if (start <? 0)%Z then Err ValueError
  else if (size =? -1)%Z then
    if (Z.of_nat (dim1 x) <? start)%Z then Err ValueError
    else Ok (T2 (dim1 x - Z.to_nat start)
               (map (skipn (Z.to_nat start)) (rows x)))
  else if (size <? 0)%Z || (Z.of_nat (dim1 x) <? start + size)%Z
  then Err ValueError
  else Ok (T2 (Z.to_nat size)
             (map (fun r => firstn (Z.to_nat size) (skipn (Z.to_nat start) r))
                (rows x))).

Definition _trim (x : tensor2) (trim_len : Z) : result tensor2 :=
  let x_len := Z.of_nat (dim1 x) in
  let left_tl := (trim_len / 2)%Z in
  tf_slice_cols x left_tl (x_len - trim_len)%Z.

(** The block [# crop longer wave] of [power_loss]. *)
Definition crop_longer (pred_wav orig_wav : tensor2)
  : result (tensor2 * tensor2) :=
  let pred_len := Z.of_nat (dim1 pred_wav) in
  let orig_len := Z.of_nat (dim1 orig_wav) in
  if (orig_len <? pred_len)%Z then
    pred_wav' <- _trim pred_wav (pred_len - orig_len)%Z ;;
    Ok (pred_wav', orig_wav)
  else if (pred_len <? orig_len)%Z then
    orig_wav' <- _trim orig_wav (orig_len - pred_len)%Z ;;
    Ok (pred_wav, orig_wav')
  else Ok (pred_wav, orig_wav).

(** [tf.pow(tf.abs(z), 2.0)] of a complex entry. *)
Definition mag_pow (z : R * R) : R :=
  sqrt (fst z * fst z + snd z * snd z) ^ 2.

(** The loss between two waveforms of equal length. *)
Definition spectral_distance (pred_wav orig_wav : tensor2)
  (frame_length frame_shift fft_length : nat) : R :=
  let orig_stft := stft orig_wav frame_length frame_shift fft_length in
  let pred_stft := stft pred_wav frame_length frame_shift fft_length in
  let orig_mag_pow := map (map (map mag_pow)) orig_stft in
  let pred_mag_pow := map (map (map mag_pow)) pred_stft in
  1 / 2 * reduce_mean3 (zip3d squared_difference orig_mag_pow pred_mag_pow).

Definition power_loss (wav_x wav_wav : tensor2)
  (frame_length frame_shift fft_length : nat) : result dict :=
  '(pred_wav, orig_wav) <- crop_longer wav_x wav_wav ;;
  Ok [("power_loss"%string,
       spectral_distance pred_wav orig_wav frame_length frame_shift
         fft_length)].

(** ** The total: [calculate_loss] *)

Definition calculate_loss (hp : hparams) (st : rng) (ff : ff_dict)
  : result (dict * rng) :=
  let plf := power_loss_factor hp in
  '(loss_dict, st') <- kl_loss hp st ff (num_samples hp) ;;
  match dict_get "kl_loss"%string loss_dict with
  | None => Err KeyError
  | Some loss =>
      if Rlt_dec 0 plf then
        pl_dict <- power_loss (ff_x ff) (ff_wav ff) 800 200 1024 ;;
        match dict_get "power_loss"%string pl_dict with
        | None => Err KeyError
        | Some pl =>
            let loss := loss + plf * pl in
            let loss_dict := dict_update loss_dict pl_dict in
            Ok (dict_update loss_dict [("loss"%string, loss)], st')
        end
      else Ok (dict_update loss_dict [("loss"%string, loss)], st')
  end.

End Model.

(** ** The quantization path: [_clip_quant_scale] *)

(** [utils.cast_quantize], [utils.inv_mu_law] and [utils.inv_cast_quantize]
    are not part of the sources and are taken as parameters. *)
Definition _clip_quant_scale
  (cast_quantize : tensor2 -> Z -> tensor2)
  (inv_mu_law : tensor2 -> tensor2)
  (inv_cast_quantize : tensor2 -> Z -> tensor2)
  (x : tensor2) (quant_chann : Z) (use_mu_law : bool) : tensor2 :=
  let x :=
    t2_map (fun v => clip_by_value v (- 1) (1 - 2 / IZR quant_chann)) x in
  if use_mu_law then
    let x_quantized := cast_quantize x quant_chann in
    inv_mu_law x_quantized
  else
    let x_quantized := cast_quantize x quant_chann in
    inv_cast_quantize x_quantized quant_chann.

(** ** Predicates of the statements *)

(** The product of the deconvolution strides (section 4.2). *)
Definition strides_product (cfg : list (Z * Z)) : Z :=
  fold_right Z.mul 1%Z (map snd cfg).

(** [r'] is [r] without [floor(d/2)] entries on the left and the remaining
    [d - floor(d/2)] entries on the right (section 4.4). *)
Definition centered_trim (d : nat) (r r' : list R) : Prop :=
  exists l t, r = l ++ r' ++ t /\
              List.length l = (d / 2)%nat /\
              List.length t = (d - d / 2)%nat.

(** The contract of [tf.random_uniform]: every entry lies in
    [[minval, maxval)]. *)
Definition uniform_in_range {E : Externals} : Prop :=
  forall st n len lo hi, lo < hi ->
    Forall (Forall (fun u => lo <= u < hi))
           (fst (random_uniform st n len lo hi)).

(** The bounds of the noise: the logit of the ends of the uniform range. *)
Definition noise_lo : R := ln (1 / 100000) - ln (1 - 1 / 100000).
Definition noise_hi : R := ln (1 - 1 / 100000) - ln (1 / 100000).

(** Every entry of a noise sample lies in [[noise_lo, noise_hi)]. *)
Definition noise_range (m : matrix) : Prop :=
  Forall (Forall (fun v => noise_lo <= v < noise_hi)) m.

Definition within (lo hi : R) (m : matrix) : Prop :=
  Forall (Forall (fun v => lo <= v <= hi)) m.

Definition within3 (lo hi : R) (c : cube) : Prop :=
  Forall (within lo hi) c.

Definition acc_within (lo hi : R) (a : acc) : Prop :=
  match a with
  | Sc r => lo <= r <= hi
  | Tn t => within3 lo hi (cells t)
  end.

(** The composition of two affine maps, and the first stage applied to the
    initial accumulators, for operations [add], [mul] on any carrier. *)
Definition compose_law {A : Type} (add mul : A -> A -> A) : Prop :=
  forall n s' m' s m,
    add (mul (add (mul n s') m') s) m
    = add (mul n (mul s' s)) (add m (mul m' s)).

Definition first_stage_law {A : Type} (add mul : A -> A -> A)
  (one zero : A -> A) : Prop :=
  forall n s m, add (mul n s) m = add (mul n (one s)) (add m (zero s)).

(** The state of the stage loop of [feed_forward] on the noise [x0]: either
    no stage has run, or the accumulators are single-channel tensors and
    the running sample is [x0 * scale_tot + mean_tot]. *)
Definition flow_inv (x0 : tensor3) (s : flow_state) : Prop :=
  s = FlowState x0 (Sc 0) (Sc 1) (Sc 0) \/
  exists M S L,
    fs_mean_tot s = Tn M /\ fs_scale_tot s = Tn S /\
    fs_log_scale_tot s = Tn L /\
    channels M = 1%nat /\ channels S = 1%nat /\ channels L = 1%nat /\
    fs_x s = t3_zip Rplus (t3_zip Rmult x0 S) M.

(** Every channel vector of a cube has [n] entries. *)
Definition channels_ok (n : nat) (c : cube) : Prop :=
  Forall (Forall (fun v => List.length v = n)) c.

(** The contract of [masked.conv1d] on the contents of its result: every
    time step carries [num_filters] channels. *)
Definition conv1d_channel_contract {E : Externals} : Prop :=
  forall x nf fl dil name ki wn,
    channels_ok nf (conv1d_values x nf fl dil name ki wn).

Definition acc_channels_ok (a : acc) : Prop :=
  match a with
  | Sc _ => True
  | Tn t => channels_ok 1 (cells t)
  end.

(** Entry [[i, j]] of a rank-2 tensor. *)
Definition entry (t : tensor2) (i j : nat) : R :=
  nth j (nth i (rows t) []) 0.

(** The collaborators [E] with the stage networks replaced. *)
Definition with_networks (E : Externals)
  (cv : tensor3 -> nat -> nat -> nat -> conv_name -> option (R * R) -> bool
        -> cube)
  (ds : tensor3 -> nat -> list (Z * Z) -> nat -> bool -> tensor3)
  (sr : tensor3 -> cube) (cn : tensor3 -> tensor3 -> cube) : Externals := {|
  rng := @rng E;
  random_uniform := @random_uniform E;
  conv1d_values := cv;
  deconv_stack := ds;
  shift_right_values := sr;
  condition_values := cn;
  teacher_out_params := @teacher_out_params E;
  mol_log_probs := @mol_log_probs E;
  stft := @stft E
|}.

(** Sums and means over index ranges, as the estimator is specified
    (section 4.3, steps 5 to 7). *)
Fixpoint sum_n (n : nat) (f : nat -> R) : R :=
  match n with
  | O => 0
  | S k => sum_n k f + f k
  end.

Definition mean_n (n : nat) (f : nat -> R) : R := sum_n n f / INR n.

Definition mean_batch_time (B L : nat) (f : nat -> nat -> R) : R :=
  sum_n B (fun b => sum_n L (f b)) / INR (B * L).

(** Every entry of a cube satisfies [P]. *)
Definition all3 (P : R -> Prop) (c : cube) : Prop :=
  Forall (Forall (Forall P)) c.

(** Shapes of contents: [b] batch rows of [t] time steps of [c] channels. *)
Definition cube_shaped (b t c : nat) (x : cube) : Prop :=
  List.length x = b /\
  Forall (fun m => List.length m = t /\
                   Forall (fun v => List.length v = c) m) x.

Definition matrix_shaped (b t : nat) (m : matrix) : Prop :=
  List.length m = b /\ Forall (fun r => List.length r = t) m.

Definition shaped3 (b t c : nat) (x : tensor3) : Prop :=
  steps x = t /\ channels x = c /\ cube_shaped b t c (cells x).

Definition shaped2 (b t : nat) (x : tensor2) : Prop :=
  dim1 x = t /\ matrix_shaped b t (rows x).

(** The contract of the collaborators on shapes: the uniform draw has the
    requested shape, a convolution keeps the batch and time axes of a
    well-shaped input and returns [num_filters] channels, the shift and the
    conditioning keep the shape of their first argument. *)
Definition shape_contract {E : Externals} : Prop :=
  (forall st n len lo hi,
     matrix_shaped n len (fst (random_uniform st n len lo hi))) /\
  (forall x nf fl dil name ki wn b t c,
     shaped3 b t c x ->
     cube_shaped b t nf (conv1d_values x nf fl dil name ki wn)) /\
  (forall x b t c, shaped3 b t c x -> cube_shaped b t c (shift_right_values x)) /\
  (forall x enc b t c,
     shaped3 b t c x -> cube_shaped b t c (condition_values x enc)).

Definition acc_shaped (b t : nat) (a : acc) : Prop :=
  match a with
  | Sc _ => True
  | Tn x => shaped3 b t 1 x
  end.

(** The accumulated scale is the exponential of the accumulated
    log-scale. *)
Definition acc_exp (s l : acc) : Prop :=
  match s, l with
  | Sc a, Sc b => a = exp b
  | Tn a, Tn b =>
      steps a = steps b /\ channels a = channels b /\
      cells a = map3d exp (cells b)
  | _, _ => False
  end.

(** ** Concrete inputs *)

(** One batch row, one mel frame, stride 1, a single dilation stage. *)
Definition demo_hp (layers : list nat) (plf : R) : hparams :=
  HParams 1 layers 3 2 2 [(1, 1)%Z] true true false plf 1.

Definition demo_mel : tensor3 := T3 1 1 [[[0]]].

(** Three frames, strides 3 and 5, maximal dilation 4. *)
Definition strided_hp : hparams :=
  HParams 3 [1%nat] 3 2 2 [(2, 3)%Z; (2, 5)%Z] true true false 0 1.

Definition strided_mel : tensor3 := T3 3 1 [[[0]; [0]; [0]]].

(** Networks that output zero, uniform draws at the middle of the range. *)
Definition zero_externals : Externals := const_externals (1 / 2) 0 0.

(** Networks whose scale projection saturates the lower clip. *)
Definition low_externals : Externals := const_externals (1 / 2) 0 (- 9).

(** Networks whose scale projection saturates the upper clip, uniform
    draws at three quarters of the range. *)
Definition high_externals : Externals := const_externals (3 / 4) 0 7.

Definition demo_ff : ff_dict :=
  FFDict demo_mel (T2 1 [[0]]) (T2 1 [[0]]) (T2 1 [[5]]) (T2 1 [[7]])
    (T2 1 [[3]]).

Definition default_flow : flow_state :=
  FlowState (T3 0 0 []) (Sc 0) (Sc 1) (Sc 0).

Definition default_ff : ff_result :=
  FFResult (T2 0 []) (T2 0 []) (T2 0 []) (T2 0 []) (T2 0 []).

(** The loop state after one zero-output stage on the noise [[[1]]]. *)
Definition one_stage_state : flow_state :=
  Eval cbv - [Rplus Rmult Rminus Ropp Rdiv Rinv exp ln Rmin Rmax tanh sqrt IZR
                clip_by_value sigmoid relu softplus INR pow Rlt_dec] in
  match @run_stages zero_externals (demo_hp [1%nat] 0) demo_mel (T2 1 [[1]])
  with
  | Ok s => s
  | Err _ => default_flow
  end.

(** The forward pass of one zero-output stage. *)
Definition one_stage_result : ff_result :=
  Eval cbv - [Rplus Rmult Rminus Ropp Rdiv Rinv exp ln Rmin Rmax tanh sqrt IZR
                clip_by_value sigmoid relu softplus INR pow Rlt_dec] in
  match @feed_forward zero_externals (demo_hp [1%nat] 0) tt demo_mel with
  | Ok (r, _) => r
  | Err _ => default_ff
  end.

(** The forward pass of two stages at the lower clip. *)
Definition low_result : ff_result :=
  Eval cbv - [Rplus Rmult Rminus Ropp Rdiv Rinv exp ln Rmin Rmax tanh sqrt IZR
                clip_by_value sigmoid relu softplus INR pow Rlt_dec] in
  match @feed_forward low_externals (demo_hp [1%nat; 1%nat] 0) tt demo_mel with
  | Ok (r, _) => r
  | Err _ => default_ff
  end.

(** The forward pass of two stages at the upper clip, and the loop state
    of the same stages run on the noise of that pass. *)
Definition high_result : ff_result :=
  Eval cbv - [Rplus Rmult Rminus Ropp Rdiv Rinv exp ln Rmin Rmax tanh sqrt IZR
                clip_by_value sigmoid relu softplus INR pow Rlt_dec] in
  match @feed_forward high_externals (demo_hp [1%nat; 1%nat] 0) tt demo_mel
  with
  | Ok (r, _) => r
  | Err _ => default_ff
  end.

Definition high_state : flow_state :=
  Eval cbv - [Rplus Rmult Rminus Ropp Rdiv Rinv exp ln Rmin Rmax tanh sqrt IZR
                clip_by_value sigmoid relu softplus INR pow Rlt_dec] in
  match @run_stages high_externals (demo_hp [1%nat; 1%nat] 0) demo_mel
          (out_rand_input high_result)
  with
  | Ok s => s
  | Err _ => default_flow
  end.

(** The sub-losses of [demo_ff] with one Monte-Carlo sample. *)
Definition demo_kl_dict : dict :=
  Eval cbv - [Rplus Rmult Rminus Ropp Rdiv Rinv exp ln Rmin Rmax tanh sqrt IZR
                clip_by_value sigmoid relu softplus INR pow Rlt_dec] in
  match @kl_loss zero_externals (demo_hp [1%nat] 1) tt demo_ff 1 with
  | Ok (d, _) => d
  | Err _ => []
  end.

(** Waveforms of 1000 and 1003 samples. *)
Definition wave_1000 : tensor2 := T2 1000 [repeat 0 1000].
Definition wave_1003 : tensor2 := T2 1003 [repeat 0 1003].

(** Two noise rows for one batch row. *)
Definition noise_pair : tensor2 := T2 1 [[2]; [3]].
Definition mean_row : tensor2 := T2 1 [[5]].
Definition scale_row : tensor2 := T2 1 [[7]].

(** The dictionary of one zero-output stage on the noise [[[1]]]. *)
Definition one_stage_dict : iaf_dict :=
  Eval cbv - [Rplus Rmult Rminus Ropp Rdiv Rinv exp ln Rmin Rmax tanh sqrt IZR
                clip_by_value sigmoid relu softplus INR pow Rlt_dec] in
  match @_create_iaf zero_externals (demo_hp [1%nat] 0) demo_mel
          (expand_dims (T2 1 [[1]])) 0
  with
  | Ok d => d
  | Err _ => IafDict (T3 0 0 []) (T3 0 0 []) (T3 0 0 []) (T3 0 0 [])
  end.


(** Two rows of zero noise for one batch row. *)
Definition zero_noise_pair : tensor2 := T2 1 [[0]; [0]].

Ltac run :=
  cbv - [Rplus Rmult Rminus Ropp Rdiv Rinv exp ln Rmin Rmax tanh sqrt IZR
         clip_by_value sigmoid relu softplus INR pow Rlt_dec].

(** ** Lists *)

Section Lists.

Context {A B C : Type}.

Lemma zipWith_map_same (f : B -> C -> A) (g : A -> B) (h : A -> C)
  (l : list A) :
  zipWith f (map g l) (map h l) = map (fun a => f (g a) (h a)) l.
Proof.
  induction l as [|a l IH]; simpl; [reflexivity|].
  now rewrite IH.
Qed.

Lemma zipWith_length (f : A -> B -> C) (l : list A) (l' : list B) :
  List.length (zipWith f l l') = Nat.min (List.length l) (List.length l').
Proof.
  revert l'; induction l as [|a l IH]; intros [|b l']; simpl; auto.
Qed.

End Lists.

Lemma zipWith_comm {A B : Type} (f g : A -> A -> B) (l l' : list A) :
  (forall a b, f a b = g b a) -> zipWith f l l' = zipWith g l' l.
Proof.
  intros Hfg. revert l'.
  induction l as [|a l IH]; intros [|b l']; simpl; auto.
  now rewrite Hfg, IH.
Qed.

(** ** The length of the noise sample *)

Lemma wrap64_range (z : Z) : (- 2 ^ 63 <= wrap64 z < 2 ^ 63)%Z.
Proof.
  unfold wrap64.
  pose proof (Z.mod_pos_bound (z + 2 ^ 63) (2 ^ 64) ltac:(lia)).
  lia.
Qed.

Lemma wrap64_small (z : Z) : (- 2 ^ 63 <= z < 2 ^ 63)%Z -> wrap64 z = z.
Proof.
  intros H. unfold wrap64.
  rewrite Z.mod_small by lia. lia.
Qed.

Lemma wrap64_congr (a b : Z) :
  (a mod 2 ^ 64 = b mod 2 ^ 64)%Z -> wrap64 a = wrap64 b.
Proof.
  intros H. unfold wrap64.
  rewrite <- (Zplus_mod_idemp_l a), H, Zplus_mod_idemp_l.
  reflexivity.
Qed.

Lemma wrap64_mod (a : Z) : (wrap64 a mod 2 ^ 64 = a mod 2 ^ 64)%Z.
Proof.
  unfold wrap64.
  rewrite <- Zminus_mod_idemp_l, Z.mod_mod by lia.
  rewrite Zminus_mod_idemp_l.
  f_equal. lia.
Qed.

Lemma np_prod_fold (l : list Z) (p : Z) :
  (- 2 ^ 63 <= p < 2 ^ 63)%Z ->
  fold_left (fun p s => wrap64 (p * s)%Z) l p
  = wrap64 (p * fold_right Z.mul 1 l)%Z.
Proof.
  revert p. induction l as [|s l IH]; intros p Hp; simpl.
  - rewrite Z.mul_1_r. symmetry. now apply wrap64_small.
  - rewrite IH by apply wrap64_range.
    apply wrap64_congr.
    rewrite <- Zmult_mod_idemp_l, wrap64_mod, Zmult_mod_idemp_l.
    f_equal. ring.
Qed.

Lemma np_prod_exact (cfg : list (Z * Z)) :
  (- 2 ^ 63 <= strides_product cfg < 2 ^ 63)%Z ->
  np_prod (map snd cfg) = strides_product cfg.
Proof.
  intros H. unfold np_prod.
  rewrite np_prod_fold by lia.
  rewrite Z.mul_1_l. now apply wrap64_small.
Qed.

(** ** Affine laws, lifted through the element-wise operations *)

Section AffineLaws.

Context {A : Type}.
Variables (add mul : A -> A -> A) (one zero : A -> A).

Lemma compose_law_lift :
  compose_law add mul ->
  forall n s' m' s m : list A,
    zipWith add (zipWith mul (zipWith add (zipWith mul n s') m') s) m
    = zipWith add (zipWith mul n (zipWith mul s' s))
        (zipWith add m (zipWith mul m' s)).
Proof.
  intros Hlaw. induction n as [|a n IH]; intros s' m' s m.
  - reflexivity.
  - destruct s' as [|b s']; destruct m' as [|c m'];
      destruct s as [|d s]; destruct m as [|e m];
      simpl; try reflexivity.
    rewrite Hlaw, IH. reflexivity.
Qed.

Lemma first_stage_law_lift :
  first_stage_law add mul one zero ->
  forall n s m : list A,
    zipWith add (zipWith mul n s) m
    = zipWith add (zipWith mul n (map one s)) (zipWith add m (map zero s)).
Proof.
  intros Hlaw. induction n as [|a n IH]; intros s m.
  - reflexivity.
  - destruct s as [|b s]; destruct m as [|c m]; simpl; try reflexivity.
    rewrite <- Hlaw, <- IH. reflexivity.
Qed.

End AffineLaws.

Lemma compose_cubes (n s' m' s m : cube) :
  zip3d Rplus (zip3d Rmult (zip3d Rplus (zip3d Rmult n s') m') s) m
  = zip3d Rplus (zip3d Rmult n (zip3d Rmult s' s))
      (zip3d Rplus m (zip3d Rmult m' s)).
Proof.
  unfold zip3d, zip2d.
  apply compose_law_lift. intros ? ? ? ? ?.
  apply compose_law_lift. intros ? ? ? ? ?.
  apply compose_law_lift. intros ? ? ? ? ?. ring.
Qed.

Lemma first_stage_cubes (n s m : cube) :
  zip3d Rplus (zip3d Rmult n s) m
  = zip3d Rplus (zip3d Rmult n (map3d (Rmult 1) s))
      (zip3d Rplus m (map3d (Rmult 0) s)).
Proof.
  unfold zip3d, zip2d, map3d, map2d.
  apply first_stage_law_lift. intros ? ? ?.
  apply first_stage_law_lift. intros ? ? ?.
  apply first_stage_law_lift. intros ? ? ?. ring.
Qed.

Section Properties.

Context {E : Externals}.

Lemma logistic_shape (st : rng) (b len : nat) :
  dim1 (fst (_logistic_0_1 st b len)) = len.
Proof.
  unfold _logistic_0_1.
  destruct (random_uniform st b len _ _) as [ru st']. reflexivity.
Qed.

(** C4. When [num_stages >= 1] and the product of the strides fits the
    64-bit integers of [np.prod], [feed_forward] draws its noise with length
    [floor(num_frames * frame_shift / max_dilation) * max_dilation], where
    [frame_shift] is the product of the strides and
    [max_dilation = 2^(num_stages-1)]; that length is a multiple of
    [max_dilation] and at most [num_frames * frame_shift]. *)
Theorem noise_length_aligned (hp : hparams) (st : rng) (mel : tensor3) :
  (1 <= num_stages hp)%nat ->
  (- 2 ^ 63 <= strides_product (deconv_config hp) < 2 ^ 63)%Z ->
  let num_frames := Z.of_nat (steps mel) in
  let frame_shift := strides_product (deconv_config hp) in
  let max_dilation := (2 ^ (Z.of_nat (num_stages hp) - 1))%Z in
  let len := (num_frames * frame_shift / max_dilation * max_dilation)%Z in
  noise_length hp (steps mel) = Ok len /\
  (max_dilation | len)%Z /\
  (len <= num_frames * frame_shift)%Z /\
  forall r st', feed_forward hp st mel = Ok (r, st') ->
    Z.of_nat (dim1 (out_rand_input r)) = len.
Proof.
  intros Hst Hfit num_frames frame_shift max_dilation len.
  assert (Hmd : (0 < max_dilation)%Z)
    by (apply Z.pow_pos_nonneg; lia).
  assert (Hlen : noise_length hp (steps mel) = Ok len).
  { unfold noise_length, max_dilation_of.
    destruct (num_stages hp) as [|n] eqn:Hn; [lia|].
    simpl bind. rewrite np_prod_exact by exact Hfit.
    subst len max_dilation frame_shift num_frames.
    replace (Z.of_nat (S n) - 1)%Z with (Z.of_nat n) by lia.
    reflexivity. }
  repeat split.
  - exact Hlen.
  - exists (num_frames * frame_shift / max_dilation)%Z. reflexivity.
  - subst len. rewrite Z.mul_comm. apply Z.mul_div_le. exact Hmd.
  - intros r st' Hff. unfold feed_forward in Hff.
    rewrite Hlen in Hff. simpl bind in Hff.
    destruct (len <? 0)%Z eqn:Hneg; [discriminate|].
    apply Z.ltb_ge in Hneg.
    pose proof (logistic_shape st (batch3 mel) (Z.to_nat len)) as Hsh.
    destruct (_logistic_0_1 st (batch3 mel) (Z.to_nat len)) as [x st1].
    simpl in Hsh.
    destruct (run_stages hp mel x) as [s|e]; [|discriminate].
    simpl bind in Hff. unfold finish in Hff.
    destruct (squeeze (fs_mean_tot s)); [|discriminate].
    destruct (squeeze (acc_minimum (fs_scale_tot s) (exp 7))); [|discriminate].
    destruct (squeeze (acc_minimum (fs_log_scale_tot s) 7)); [|discriminate].
    simpl in Hff. inversion Hff; subst r st'. simpl.
    rewrite Hsh. apply Z2Nat.id. exact Hneg.
Qed.

(** ** The centred trim of the longer waveform *)

Lemma firstn_skipn_split (d : nat) (r : list R) (n : nat) :
  List.length r = (n + d)%nat ->
  centered_trim d r (firstn n (skipn (d / 2) r)).
Proof.
  intros Hlen.
  assert (Hd : (d / 2 <= d)%nat) by (apply Nat.Div0.div_le_upper_bound; lia).
  exists (firstn (d / 2) r), (skipn n (skipn (d / 2) r)).
  split; [|split].
  - rewrite firstn_skipn. symmetry. apply firstn_skipn.
  - rewrite length_firstn. lia.
  - rewrite !length_skipn. lia.
Qed.

Lemma trim_centered (x : tensor2) (d n : nat) :
  wf2 x -> dim1 x = (n + d)%nat ->
  exists x', _trim x (Z.of_nat d) = Ok x' /\ dim1 x' = n /\ wf2 x' /\
             Forall2 (centered_trim d) (rows x) (rows x').
Proof.
  intros Hwf Hdim.
  assert (Hd : (d / 2 <= d)%nat) by (apply Nat.Div0.div_le_upper_bound; lia).
  assert (Hhalf : (Z.of_nat d / 2)%Z = Z.of_nat (d / 2))
    by (rewrite (Nat2Z.inj_div d 2); reflexivity).
  assert (Hsize : (Z.of_nat (dim1 x) - Z.of_nat d)%Z = Z.of_nat n) by lia.
  exists (T2 n (map (fun r => firstn n (skipn (d / 2) r)) (rows x))).
  split; [|split; [reflexivity|split]].
  - unfold _trim, tf_slice_cols. rewrite Hhalf, Hsize.
    destruct (Z.ltb_spec (Z.of_nat (d / 2)) 0); [lia|].
    destruct (Z.eqb_spec (Z.of_nat n) (-1)); [lia|].
    destruct (Z.ltb_spec (Z.of_nat n) 0); [lia|].
    destruct (Z.ltb_spec (Z.of_nat (dim1 x)) (Z.of_nat (d / 2) + Z.of_nat n));
      [lia|].
    simpl. rewrite !Nat2Z.id. reflexivity.
  - unfold wf2 in *. simpl. rewrite Forall_map.
    eapply Forall_impl; [|exact Hwf]. intros r Hr. simpl in *.
    rewrite length_firstn, length_skipn. lia.
  - simpl. unfold wf2 in Hwf. induction Hwf as [|r rs Hr _ IH]; simpl.
    + constructor.
    + constructor; [|exact IH].
      apply firstn_skipn_split. rewrite Hr. exact Hdim.
Qed.

(** C6. When the lengths of the predicted and the reference waveform
    differ by [d > 0], only the longer one is trimmed: it loses
    [floor(d/2)] samples on the left and [d - floor(d/2)] on the right, and
    both waveforms end with the shorter length. *)
Theorem crop_longer_centered (pred_wav orig_wav : tensor2) :
  wf2 pred_wav -> wf2 orig_wav -> dim1 pred_wav <> dim1 orig_wav ->
  let p := dim1 pred_wav in
  let o := dim1 orig_wav in
  let d := (Nat.max p o - Nat.min p o)%nat in
  exists pred' orig',
    crop_longer pred_wav orig_wav = Ok (pred', orig') /\
    dim1 pred' = Nat.min p o /\ dim1 orig' = Nat.min p o /\
    wf2 pred' /\ wf2 orig' /\
    ((o < p)%nat ->
       orig' = orig_wav /\
       Forall2 (centered_trim d) (rows pred_wav) (rows pred')) /\
    ((p < o)%nat ->
       pred' = pred_wav /\
       Forall2 (centered_trim d) (rows orig_wav) (rows orig')).
Proof.
  intros Hp Ho Hne p o d.
  destruct (Nat.lt_total p o) as [Hlt|[Heq|Hgt]]; [|contradiction|].
  - assert (Hd : d = (o - p)%nat) by (subst d; lia).
    destruct (trim_centered orig_wav d p Ho ltac:(fold o; lia))
      as (x' & Htrim & Hdim & Hwf & Hrows).
    exists pred_wav, x'. unfold crop_longer. fold p o.
    destruct (Z.ltb_spec (Z.of_nat o) (Z.of_nat p)); [lia|].
    destruct (Z.ltb_spec (Z.of_nat p) (Z.of_nat o)); [|lia].
    replace (Z.of_nat o - Z.of_nat p)%Z with (Z.of_nat d) by lia.
    rewrite Htrim. simpl.
    repeat split; auto; try (intros; lia); fold p; lia.
  - assert (Hd : d = (p - o)%nat) by (subst d; lia).
    destruct (trim_centered pred_wav d o Hp ltac:(fold p; lia))
      as (x' & Htrim & Hdim & Hwf & Hrows).
    exists x', orig_wav. unfold crop_longer. fold p o.
    destruct (Z.ltb_spec (Z.of_nat o) (Z.of_nat p)); [|lia].
    replace (Z.of_nat p - Z.of_nat o)%Z with (Z.of_nat d) by lia.
    rewrite Htrim. simpl.
    repeat split; auto; try (intros; lia); fold o; lia.
Qed.

(** ** The range of the noise *)

Lemma ln_monotone (x y : R) : 0 < x -> x <= y -> ln x <= ln y.
Proof.
  intros Hx [Hlt|Heq].
  - left. now apply ln_increasing.
  - subst y. right. reflexivity.
Qed.

Lemma exp_monotone (x y : R) : x <= y -> exp x <= exp y.
Proof.
  intros [Hlt|Heq].
  - left. now apply exp_increasing.
  - subst y. right. reflexivity.
Qed.

Lemma logit_bounds (u : R) :
  1 / 100000 <= u < 1 - 1 / 100000 ->
  noise_lo <= ln u - ln (1 - u) < noise_hi.
Proof.
  intros [Hlo Hhi]. unfold noise_lo, noise_hi.
  assert (H1 : ln (1 / 100000) <= ln u) by (apply ln_monotone; lra).
  assert (H2 : ln u < ln (1 - 1 / 100000)) by (apply ln_increasing; lra).
  assert (H3 : ln (1 / 100000) < ln (1 - u)) by (apply ln_increasing; lra).
  assert (H4 : ln (1 - u) <= ln (1 - 1 / 100000)) by (apply ln_monotone; lra).
  lra.
Qed.

Lemma logistic_rows (ru : matrix) :
  zip2d Rminus (map2d ln ru) (map2d ln (map2d (fun u => 1 - u) ru))
  = map2d (fun u => ln u - ln (1 - u)) ru.
Proof.
  unfold zip2d, map2d. rewrite !map_map.
  rewrite zipWith_map_same. apply map_ext. intros r.
  rewrite !map_map. apply zipWith_map_same.
Qed.

Lemma logistic_within (st : rng) (b len : nat) :
  uniform_in_range ->
  noise_range (rows (fst (_logistic_0_1 st b len))).
Proof.
  intros Hu. unfold _logistic_0_1.
  specialize (Hu st b len (1 / 100000) (1 - 1 / 100000) ltac:(lra)).
  destruct (random_uniform st b len _ _) as [ru st']. simpl in *.
  rewrite logistic_rows. unfold noise_range, map2d.
  rewrite Forall_map. eapply Forall_impl; [|exact Hu].
  intros r Hr. rewrite Forall_map.
  eapply Forall_impl; [|exact Hr].
  intros u Hin. now apply logit_bounds.
Qed.

(** C10. When the uniform draw respects its range [[1e-5, 1 - 1e-5)],
    every scalar [v] of a noise sample satisfies
    [log(1e-5) - log(1 - 1e-5) <= v < log(1 - 1e-5) - log(1e-5)], two
    bounds that are opposite numbers; this holds for the sampler itself
    (hence for the Monte-Carlo noise of [kl_loss], which is a call of it)
    and for the noise returned by [feed_forward]. *)
Theorem logistic_noise_bounded (st : rng) (batch_size len : nat) :
  uniform_in_range ->
  noise_range (rows (fst (_logistic_0_1 st batch_size len))) /\
  (forall hp mel r st',
     feed_forward hp st mel = Ok (r, st') ->
     noise_range (rows (out_rand_input r))) /\
  noise_lo = - noise_hi.
Proof.
  intros Hu. split; [|split].
  - now apply logistic_within.
  - intros hp mel r st' Hff. unfold feed_forward in Hff.
    destruct (noise_length hp (steps mel)) as [n|e]; [|discriminate].
    simpl bind in Hff.
    destruct (n <? 0)%Z; [discriminate|].
    pose proof (logistic_within st (batch3 mel) (Z.to_nat n) Hu) as Hw.
    destruct (_logistic_0_1 st (batch3 mel) (Z.to_nat n)) as [x st1].
    simpl in Hw.
    destruct (run_stages hp mel x) as [s|e]; [|discriminate].
    simpl bind in Hff. unfold finish in Hff.
    destruct (squeeze (fs_mean_tot s)); [|discriminate].
    destruct (squeeze (acc_minimum (fs_scale_tot s) (exp 7))); [|discriminate].
    destruct (squeeze (acc_minimum (fs_log_scale_tot s) 7)); [|discriminate].
    simpl in Hff. inversion Hff; subst r st'. exact Hw.
  - unfold noise_lo, noise_hi. lra.
Qed.

(** ** The clipping of the scales *)

Lemma feed_forward_inv (hp : hparams) (st st' : rng) (mel : tensor3)
  (r : ff_result) :
  feed_forward hp st mel = Ok (r, st') ->
  exists len x s,
    noise_length hp (steps mel) = Ok len /\ (0 <= len)%Z /\
    _logistic_0_1 st (batch3 mel) (Z.to_nat len) = (x, st') /\
    run_stages hp mel x = Ok s /\ finish x s = Ok r.
Proof.
  intros Hff. unfold feed_forward in Hff.
  destruct (noise_length hp (steps mel)) as [n|e]; [|discriminate].
  simpl bind in Hff.
  destruct (Z.ltb_spec n 0); [discriminate|].
  destruct (_logistic_0_1 st (batch3 mel) (Z.to_nat n)) as [x st1] eqn:Hx.
  destruct (run_stages hp mel x) as [s|e] eqn:Hs; [|discriminate].
  simpl bind in Hff.
  destruct (finish x s) as [r'|e] eqn:Hr; [|discriminate].
  simpl in Hff. inversion Hff; subst r' st1.
  exists n, x, s. auto.
Qed.

Lemma Forall_zipWith {A B C : Type} (P : A -> Prop) (Q : B -> Prop)
  (S : C -> Prop) (f : A -> B -> C) (l : list A) (l' : list B) :
  (forall a b, P a -> Q b -> S (f a b)) ->
  Forall P l -> Forall Q l' -> Forall S (zipWith f l l').
Proof.
  intros Hf Hl. revert l'.
  induction Hl as [|a l Ha _ IH]; intros l' Hl'; simpl; [constructor|].
  destruct Hl' as [|b l' Hb Hl']; constructor; auto.
Qed.

Lemma within3_map (f : R -> R) (lo hi : R) (c : cube) :
  (forall v, lo <= f v <= hi) -> within3 lo hi (map3d f c).
Proof.
  intros Hf. unfold within3, within, map3d, map2d.
  rewrite Forall_map. apply Forall_forall. intros m _.
  rewrite Forall_map. apply Forall_forall. intros r _.
  rewrite Forall_map. apply Forall_forall. intros v _. apply Hf.
Qed.

Lemma within3_map_impl (f : R -> R) (lo hi lo' hi' : R) (c : cube) :
  (forall v, lo <= v <= hi -> lo' <= f v <= hi') ->
  within3 lo hi c -> within3 lo' hi' (map3d f c).
Proof.
  intros Hf Hc. unfold within3, within, map3d, map2d in *.
  rewrite Forall_map. eapply Forall_impl; [|exact Hc]. intros m Hm.
  rewrite Forall_map. eapply Forall_impl; [|exact Hm]. intros r Hr.
  rewrite Forall_map. eapply Forall_impl; [|exact Hr]. intros v Hv.
  now apply Hf.
Qed.

Lemma within3_zip (f : R -> R -> R) (lo hi lo' hi' lo'' hi'' : R) (a b : cube) :
  (forall u v, lo <= u <= hi -> lo' <= v <= hi' -> lo'' <= f u v <= hi'') ->
  within3 lo hi a -> within3 lo' hi' b -> within3 lo'' hi'' (zip3d f a b).
Proof.
  intros Hf. unfold within3, within, zip3d, zip2d.
  apply Forall_zipWith. intros m m'.
  apply Forall_zipWith. intros r r'.
  apply Forall_zipWith. exact Hf.
Qed.

Lemma clip_bounds (v lo hi : R) : lo <= hi -> lo <= clip_by_value v lo hi <= hi.
Proof.
  intros H. unfold clip_by_value, Rmin, Rmax.
  destruct (Rle_dec v lo); destruct (Rle_dec _ hi); lra.
Qed.

Lemma exp_m9_le_7 : exp (- 9) <= exp 7.
Proof. apply exp_monotone. lra. Qed.

Lemma scale_of_within (log_mode : bool) (scale_params : tensor3) :
  within3 (exp (- 9)) (exp 7) (cells (fst (scale_of log_mode scale_params))).
Proof.
  destruct log_mode; simpl.
  - apply within3_map_impl with (lo := - 9) (hi := 7).
    + intros v [H1 H2]. split; now apply exp_monotone.
    + apply within3_map. intros v. apply clip_bounds. lra.
  - apply within3_map. intros v. apply clip_bounds, exp_m9_le_7.
Qed.

Lemma create_iaf_scale (hp : hparams) (mel x : tensor3) (iaf_idx : nat)
  (d : iaf_dict) :
  _create_iaf hp mel x iaf_idx = Ok d ->
  within3 (exp (- 9)) (exp 7) (cells (iaf_scale d)).
Proof.
  unfold _create_iaf. intros H.
  destruct (nth_error (num_iaf_layers hp) iaf_idx) as [n|]; [|discriminate].
  destruct (iaf_layers _ _ _ _ _) as [l|e]; [|discriminate].
  simpl bind in H.
  match type of H with
  | context [scale_of ?m ?p] =>
      pose proof (scale_of_within m p) as Hw; destruct (scale_of m p) as [sc ls]
  end.
  inversion H; subst d. exact Hw.
Qed.

Lemma exp_scale_step (n : nat) (u v : R) :
  exp (- 9 * INR n) <= u <= exp (7 * INR n) ->
  exp (- 9) <= v <= exp 7 ->
  exp (- 9 * INR (S n)) <= u * v <= exp (7 * INR (S n)).
Proof.
  intros [Hu1 Hu2] [Hv1 Hv2].
  rewrite S_INR.
  replace (- 9 * (INR n + 1)) with (- 9 * INR n + - 9) by ring.
  replace (7 * (INR n + 1)) with (7 * INR n + 7) by ring.
  rewrite !exp_plus.
  pose proof (exp_pos (- 9 * INR n)). pose proof (exp_pos (- 9)).
  split; apply Rmult_le_compat; lra.
Qed.

Lemma flow_step_scale (hp : hparams) (mel : tensor3) (s s' : flow_state)
  (iaf_idx n : nat) :
  flow_step hp mel s iaf_idx = Ok s' ->
  acc_within (exp (- 9 * INR n)) (exp (7 * INR n)) (fs_scale_tot s) ->
  acc_within (exp (- 9 * INR (S n))) (exp (7 * INR (S n))) (fs_scale_tot s').
Proof.
  unfold flow_step. intros H Hs.
  destruct (_create_iaf hp mel (fs_x s) iaf_idx) as [d|e] eqn:Hd;
    [|discriminate].
  simpl in H. inversion H; subst s'; clear H. simpl.
  pose proof (create_iaf_scale _ _ _ _ _ Hd) as Hsc.
  destruct (fs_scale_tot s) as [r|t]; simpl in *.
  - eapply within3_map_impl; [|exact Hsc].
    intros v Hv. now apply exp_scale_step.
  - eapply within3_zip; [|exact Hs|exact Hsc].
    intros u v Hu Hv. now apply exp_scale_step.
Qed.

Lemma flow_loop_scale (hp : hparams) (mel : tensor3) (range : list nat) :
  forall (s s' : flow_state) (n : nat),
  flow_loop hp mel s range = Ok s' ->
  acc_within (exp (- 9 * INR n)) (exp (7 * INR n)) (fs_scale_tot s) ->
  acc_within (exp (- 9 * INR (n + List.length range)))
             (exp (7 * INR (n + List.length range))) (fs_scale_tot s').
Proof.
  induction range as [|i range IH]; intros s s' n H Hs; simpl in H.
  - inversion H; subst s'. simpl. now rewrite Nat.add_0_r.
  - destruct (flow_step hp mel s i) as [s1|e] eqn:Hstep; [|discriminate].
    simpl in H.
    replace (n + List.length (i :: range))%nat
      with (S n + List.length range)%nat by (simpl; lia).
    eapply IH; [exact H|].
    eapply flow_step_scale; eauto.
Qed.

Lemma squeeze_within (lo hi : R) (a : acc) (t : tensor2) :
  squeeze a = Ok t -> acc_within lo hi a -> within lo hi (rows t).
Proof.
  destruct a as [r|t3]; simpl; [discriminate|].
  destruct (Nat.eqb (channels t3) 1); [|discriminate].
  intros H Hw. inversion H; subst t; clear H. simpl.
  unfold within3, within in *. rewrite Forall_map.
  eapply Forall_impl; [|exact Hw].
  intros m Hm. now apply Forall_concat.
Qed.

Lemma acc_minimum_within (lo hi bound : R) (a : acc) :
  lo <= bound -> acc_within lo hi a ->
  acc_within lo bound (acc_minimum a bound).
Proof.
  intros Hb. destruct a as [r|t]; simpl.
  - intros [H1 H2]. unfold Rmin. destruct (Rle_dec r bound); lra.
  - apply within3_map_impl. intros v [H1 H2].
    unfold Rmin. destruct (Rle_dec v bound); lra.
Qed.

(** C2 (as implemented). For arbitrary raw projection outputs every per-stage
    scale lies within [[exp(-9), exp(7)]] in both parameterizations; the
    composed [scale_tot] returned by [feed_forward] is only clipped from
    above: with [k] stages it lies within [[exp(-9 k), exp(7)]], hence
    within [[exp(-9), exp(7)]] for a single stage. *)
Theorem scale_clipping (hp : hparams) (st st' : rng) (mel : tensor3)
  (r : ff_result) :
  feed_forward hp st mel = Ok (r, st') ->
  (forall log_mode scale_params,
     within3 (exp (- 9)) (exp 7)
       (cells (fst (scale_of log_mode scale_params)))) /\
  (forall x iaf_idx d,
     _create_iaf hp mel x iaf_idx = Ok d ->
     within3 (exp (- 9)) (exp 7) (cells (iaf_scale d))) /\
  let k := List.length (num_iaf_layers hp) in
  within (exp (- 9 * INR k)) (exp 7) (rows (out_scale_tot r)) /\
  (k = 1%nat -> within (exp (- 9)) (exp 7) (rows (out_scale_tot r))).
Proof.
  intros Hff.
  split; [exact scale_of_within|].
  split; [intros x i d; apply create_iaf_scale|].
  intros k.
  assert (Hk : within (exp (- 9 * INR k)) (exp 7) (rows (out_scale_tot r))).
  { destruct (feed_forward_inv _ _ _ _ _ Hff)
      as (len & x & s & _ & _ & _ & Hrun & Hfin).
    unfold run_stages in Hrun.
    apply flow_loop_scale with (n := 0%nat) in Hrun.
    2:{ simpl. rewrite !Rmult_0_r, exp_0. lra. }
    rewrite length_seq in Hrun. simpl in Hrun. fold k in Hrun.
    unfold finish in Hfin.
    destruct (squeeze (fs_mean_tot s)) as [m|]; [|discriminate].
    simpl bind in Hfin.
    destruct (squeeze (acc_minimum (fs_scale_tot s) (exp 7))) as [sc|] eqn:Hsq;
      [|discriminate].
    simpl bind in Hfin.
    destruct (squeeze (acc_minimum (fs_log_scale_tot s) 7)); [|discriminate].
    simpl in Hfin. inversion Hfin; subst r. simpl.
    eapply squeeze_within; [exact Hsq|].
    eapply acc_minimum_within; [|exact Hrun].
    apply exp_monotone. pose proof (pos_INR k). lra. }
  split; [exact Hk|].
  intros H1. rewrite H1 in Hk. simpl in Hk.
  now rewrite Rmult_1_r in Hk.
Qed.

(** ** The composition of the affine stages *)

Lemma scale_of_channels (log_mode : bool) (p : tensor3) :
  channels (fst (scale_of log_mode p)) = channels p /\
  channels (snd (scale_of log_mode p)) = channels p.
Proof. destruct log_mode; split; reflexivity. Qed.

Lemma create_iaf_affine (hp : hparams) (mel x : tensor3) (iaf_idx : nat)
  (d : iaf_dict) :
  _create_iaf hp mel x iaf_idx = Ok d ->
  iaf_x d = t3_zip Rplus (t3_zip Rmult x (iaf_scale d)) (iaf_mean d) /\
  channels (iaf_mean d) = 1%nat /\ channels (iaf_scale d) = 1%nat /\
  channels (iaf_log_scale d) = 1%nat.
Proof.
  unfold _create_iaf. intros H.
  destruct (nth_error (num_iaf_layers hp) iaf_idx) as [n|]; [|discriminate].
  destruct (iaf_layers _ _ _ _ _) as [l|e]; [|discriminate].
  simpl bind in H.
  match type of H with
  | context [scale_of ?m ?p] =>
      pose proof (scale_of_channels m p) as [Hc1 Hc2];
      destruct (scale_of m p) as [sc ls]
  end.
  inversion H; subst d. simpl in *. auto.
Qed.

Lemma flow_step_inv (hp : hparams) (mel x0 : tensor3) (s s' : flow_state)
  (iaf_idx : nat) :
  flow_step hp mel s iaf_idx = Ok s' ->
  flow_inv x0 s -> flow_inv x0 s' /\ s' <> FlowState x0 (Sc 0) (Sc 1) (Sc 0).
Proof.
  unfold flow_step. intros H Hinv.
  destruct (_create_iaf hp mel (fs_x s) iaf_idx) as [d|e] eqn:Hd;
    [|discriminate].
  simpl in H. inversion H; subst s'; clear H.
  destruct (create_iaf_affine _ _ _ _ _ Hd) as (Hx & Hm & Hs & Hl).
  split; [|discriminate].
  right. do 3 eexists. simpl.
  split; [reflexivity|]. split; [reflexivity|]. split; [reflexivity|].
  destruct Hinv as [Hinit|(M & S & L & HM & HS & HL & HcM & HcS & HcL & Hfx)].
  - subst s. simpl in *. repeat split; auto.
    rewrite Hx. unfold t3_zip, t3_map. simpl. f_equal.
    apply first_stage_cubes.
  - rewrite HM, HS, HL. simpl. repeat split; auto.
    rewrite Hx, Hfx. unfold t3_zip. simpl. f_equal.
    apply compose_cubes.
Qed.

Lemma flow_loop_inv (hp : hparams) (mel x0 : tensor3) (range : list nat) :
  forall s s' : flow_state,
  flow_loop hp mel s range = Ok s' ->
  flow_inv x0 s ->
  flow_inv x0 s' /\
  (range <> [] -> s' <> FlowState x0 (Sc 0) (Sc 1) (Sc 0)).
Proof.
  induction range as [|i range IH]; intros s s' H Hinv; simpl in H.
  - inversion H; subst s'. split; [exact Hinv|congruence].
  - destruct (flow_step hp mel s i) as [s1|e] eqn:Hstep; [|discriminate].
    simpl in H.
    destruct (flow_step_inv _ _ _ _ _ _ Hstep Hinv) as [Hinv1 Hne1].
    destruct (IH _ _ H Hinv1) as [Hinv' Hne'].
    split; [exact Hinv'|]. intros _.
    destruct range as [|j range'].
    + simpl in H. inversion H; subst s'. exact Hne1.
    + apply Hne'. discriminate.
Qed.

Lemma channels_ok_map (f : R -> R) (n : nat) (c : cube) :
  channels_ok n c -> channels_ok n (map3d f c).
Proof.
  unfold channels_ok, map3d, map2d. intros H.
  rewrite Forall_map. eapply Forall_impl; [|exact H]. intros m Hm.
  rewrite Forall_map. eapply Forall_impl; [|exact Hm]. intros v Hv.
  simpl. now rewrite length_map.
Qed.

Lemma channels_ok_zip (f : R -> R -> R) (n : nat) (a b : cube) :
  channels_ok n a -> channels_ok n b -> channels_ok n (zip3d f a b).
Proof.
  unfold channels_ok, zip3d, zip2d.
  apply Forall_zipWith. intros m m'.
  apply Forall_zipWith. intros v v' Hv Hv'.
  rewrite zipWith_length, Hv, Hv'. apply Nat.min_id.
Qed.

Lemma channels_ok_expand (x : tensor2) : channels_ok 1 (cells (expand_dims x)).
Proof.
  unfold channels_ok. simpl.
  rewrite Forall_map. apply Forall_forall. intros r _.
  rewrite Forall_map. apply Forall_forall. intros v _. reflexivity.
Qed.

Lemma concat_expand (r : list R) : concat (map (fun v => [v]) r) = r.
Proof.
  induction r as [|v r IH]; simpl; [reflexivity|]. now rewrite IH.
Qed.

Lemma squeeze_expand (x : tensor2) :
  map (@concat R) (cells (expand_dims x)) = rows x.
Proof.
  simpl. rewrite map_map.
  rewrite <- (map_id (rows x)) at 2.
  apply map_ext. intros r. apply concat_expand.
Qed.

Lemma concat_zip_singletons (f : R -> R -> R) (a b : matrix) :
  Forall (fun v => List.length v = 1%nat) a ->
  Forall (fun v => List.length v = 1%nat) b ->
  concat (zipWith (zipWith f) a b) = zipWith f (concat a) (concat b).
Proof.
  intros Ha. revert b.
  induction Ha as [|u a Hu _ IH]; intros b Hb; simpl; [reflexivity|].
  destruct Hb as [|v b Hv Hb].
  - destruct u as [|u1 [|u2 u]]; try discriminate. reflexivity.
  - destruct u as [|u1 [|u2 u]]; try discriminate.
    destruct v as [|v1 [|v2 v]]; try discriminate.
    simpl. now rewrite IH.
Qed.

Lemma squeeze_zip (f : R -> R -> R) (a b : cube) :
  channels_ok 1 a -> channels_ok 1 b ->
  map (@concat R) (zip3d f a b)
  = zip2d f (map (@concat R) a) (map (@concat R) b).
Proof.
  unfold channels_ok, zip3d, zip2d. intros Ha. revert b.
  induction Ha as [|m a Hm _ IH]; intros b Hb; simpl; [reflexivity|].
  destruct Hb as [|m' b Hm' Hb]; simpl; [reflexivity|].
  rewrite IH by exact Hb.
  now rewrite concat_zip_singletons.
Qed.

Lemma create_iaf_channels_ok (hp : hparams) (mel x : tensor3) (iaf_idx : nat)
  (d : iaf_dict) :
  conv1d_channel_contract ->
  _create_iaf hp mel x iaf_idx = Ok d ->
  channels_ok 1 (cells (iaf_mean d)) /\ channels_ok 1 (cells (iaf_scale d)).
Proof.
  intros Hc. unfold _create_iaf. intros H.
  destruct (nth_error (num_iaf_layers hp) iaf_idx) as [n|]; [|discriminate].
  destruct (iaf_layers _ _ _ _ _) as [l|e]; [|discriminate].
  simpl bind in H.
  match type of H with
  | context [scale_of ?m ?p] =>
      assert (Hsc : channels_ok 1 (cells (fst (scale_of m p))));
      [|destruct (scale_of m p) as [sc ls]]
  end.
  { destruct (use_log_scale hp); simpl;
      repeat apply channels_ok_map; apply (Hc _ 1%nat). }
  inversion H; subst d. simpl in *. split; [|exact Hsc].
  apply (Hc _ 1%nat).
Qed.

Lemma flow_step_channels_ok (hp : hparams) (mel : tensor3) (s s' : flow_state)
  (iaf_idx : nat) :
  conv1d_channel_contract ->
  flow_step hp mel s iaf_idx = Ok s' ->
  acc_channels_ok (fs_mean_tot s) -> acc_channels_ok (fs_scale_tot s) ->
  acc_channels_ok (fs_mean_tot s') /\ acc_channels_ok (fs_scale_tot s').
Proof.
  intros Hc. unfold flow_step. intros H HM HS.
  destruct (_create_iaf hp mel (fs_x s) iaf_idx) as [d|e] eqn:Hd;
    [|discriminate].
  simpl in H. inversion H; subst s'; clear H. simpl.
  destruct (create_iaf_channels_ok _ _ _ _ _ Hc Hd) as [Hm Hs].
  split.
  - apply channels_ok_zip; [exact Hm|].
    destruct (fs_mean_tot s); simpl in *.
    + now apply channels_ok_map.
    + now apply channels_ok_zip.
  - destruct (fs_scale_tot s); simpl in *.
    + now apply channels_ok_map.
    + now apply channels_ok_zip.
Qed.

Lemma flow_loop_channels_ok (hp : hparams) (mel : tensor3) (range : list nat) :
  conv1d_channel_contract ->
  forall s s' : flow_state,
  flow_loop hp mel s range = Ok s' ->
  acc_channels_ok (fs_mean_tot s) -> acc_channels_ok (fs_scale_tot s) ->
  acc_channels_ok (fs_mean_tot s') /\ acc_channels_ok (fs_scale_tot s').
Proof.
  intros Hc.
  induction range as [|i range IH]; intros s s' H HM HS; simpl in H.
  - inversion H; subst s'. auto.
  - destruct (flow_step hp mel s i) as [s1|e] eqn:Hstep; [|discriminate].
    simpl in H.
    destruct (flow_step_channels_ok _ _ _ _ _ Hc Hstep HM HS) as [HM1 HS1].
    eapply IH; eauto.
Qed.

Lemma minimum_noop (bound : R) (c : cube) :
  within3 0 bound c -> map3d (fun v => Rmin v bound) c = c.
Proof.
  unfold within3, within, map3d, map2d. intros H.
  rewrite <- (map_id c) at 2. apply map_ext_in. intros m Hm.
  rewrite Forall_forall in H. specialize (H m Hm).
  rewrite <- (map_id m) at 2. apply map_ext_in. intros v Hv.
  rewrite Forall_forall in H. specialize (H v Hv).
  rewrite <- (map_id v) at 2. apply map_ext_in. intros a Ha.
  rewrite Forall_forall in H. specialize (H a Ha).
  apply Rmin_left. lra.
Qed.

Lemma within3_weaken (lo hi lo' hi' : R) (c : cube) :
  lo' <= lo -> hi <= hi' -> within3 lo hi c -> within3 lo' hi' c.
Proof.
  intros Hlo Hhi H. unfold within3, within in *.
  eapply Forall_impl; [|exact H]. intros m Hm.
  eapply Forall_impl; [|exact Hm]. intros v Hv.
  eapply Forall_impl; [|exact Hv]. intros a Ha. simpl in *. lra.
Qed.

(** C1 (as implemented). For every configuration with at least one stage, the
    sample threaded through the stages one after the other equals
    [noise * scale_tot + mean_tot] for the totals accumulated by the rule
    [mean_tot_k = mean_k + mean_tot_{k-1} * scale_k],
    [scale_tot_k = scale_tot_{k-1} * scale_k] from [(0, 1)], before the
    clip.  [feed_forward] returns [x = noise * min(scale_tot, exp 7) +
    mean_tot]; it equals the threaded sample when no entry of the
    accumulated scale exceeds [exp 7], which always holds for one stage. *)
Theorem affine_composition (hp : hparams) (mel : tensor3) (x : tensor2)
  (s : flow_state) :
  num_iaf_layers hp <> [] ->
  run_stages hp mel x = Ok s ->
  exists M S r,
    fs_mean_tot s = Tn M /\ fs_scale_tot s = Tn S /\
    fs_x s = t3_zip Rplus (t3_zip Rmult (expand_dims x) S) M /\
    finish x s = Ok r /\
    out_mean_tot r = T2 (steps M) (map (@concat R) (cells M)) /\
    out_scale_tot r
    = T2 (steps S)
         (map (@concat R) (map3d (fun v => Rmin v (exp 7)) (cells S))) /\
    out_x r
    = t2_zip Rplus (t2_zip Rmult x (out_scale_tot r)) (out_mean_tot r) /\
    (conv1d_channel_contract -> within3 0 (exp 7) (cells S) ->
     squeeze (Tn (fs_x s)) = Ok (out_x r)) /\
    (List.length (num_iaf_layers hp) = 1%nat -> within3 0 (exp 7) (cells S)).
Proof.
  intros Hne Hrun. unfold run_stages in Hrun.
  set (x0 := expand_dims x) in *.
  destruct (flow_loop_inv hp mel x0 _ _ _ Hrun (or_introl eq_refl))
    as [Hinv Hnot].
  destruct Hinv as [Hinit|(M & S & L & HM & HS & HL & HcM & HcS & HcL & Hfx)].
  { exfalso. apply Hnot; [|exact Hinit].
    destruct (num_iaf_layers hp); [congruence|discriminate]. }
  exists M, S.
  unfold finish. rewrite HM, HS, HL. simpl.
  rewrite HcM, HcS, HcL. simpl.
  eexists. repeat split; try reflexivity; try assumption.
  - intros Hc Hle. rewrite Hfx. subst x0. simpl.
    destruct (flow_loop_channels_ok hp mel _ Hc _ _ Hrun I I) as [HokM HokS].
    rewrite HM in HokM. rewrite HS in HokS. simpl in HokM, HokS.
    unfold t2_zip. simpl. do 2 f_equal.
    rewrite (minimum_noop _ _ Hle).
    rewrite squeeze_zip; [|apply channels_ok_zip;
                            [apply channels_ok_expand|exact HokS]|exact HokM].
    rewrite squeeze_zip by (try apply channels_ok_expand; exact HokS).
    pose proof (squeeze_expand x) as Hex. simpl in Hex.
    now rewrite Hex.
  - intros H1.
    apply flow_loop_scale with (n := 0%nat) in Hrun.
    2:{ simpl. rewrite !Rmult_0_r, exp_0. lra. }
    rewrite length_seq, H1, HS in Hrun. simpl in Hrun.
    rewrite !Rmult_1_r in Hrun.
    eapply within3_weaken; [| |exact Hrun]; [|lra].
    left. apply exp_pos.
Qed.

(** ** The assertion of the gated unit *)

Lemma parity_test (w : nat) : Nat.eqb (w mod 2) 0 = Nat.even w.
Proof.
  rewrite (Nat.div_mod_eq w 2) at 2.
  rewrite Nat.add_comm, Nat.even_add_mul_2.
  pose proof (Nat.mod_upper_bound w 2 ltac:(lia)) as Hlt.
  destruct (w mod 2) as [|[|k]]; [reflexivity|reflexivity|lia].
Qed.

Lemma gated_unit_even (d : tensor3) :
  Nat.even (channels d) = true ->
  gated_unit d
  = Ok (t3_zip Rmult (t3_map sigmoid (slice_to (channels d / 2) d))
          (t3_map tanh (slice_from (channels d / 2) d))).
Proof.
  intros H. unfold gated_unit. now rewrite parity_test, H.
Qed.

Lemma gated_unit_odd (d : tensor3) :
  Nat.odd (channels d) = true -> gated_unit d = Err AssertionError.
Proof.
  intros H. unfold gated_unit. rewrite parity_test.
  unfold Nat.odd in H. now destruct (Nat.even (channels d)).
Qed.

Lemma iaf_layer_even (hp : hparams) (iaf_idx : nat) (mel_en l : tensor3)
  (i : nat) :
  (0 < num_stages hp)%nat -> Nat.even (width hp) = true ->
  exists l', iaf_layer hp iaf_idx mel_en l i = Ok l'.
Proof.
  intros Hst Hev. unfold iaf_layer, layer_dilation.
  destruct (num_stages hp) as [|n]; [lia|]. simpl bind.
  rewrite gated_unit_even by exact Hev. simpl. eauto.
Qed.

Lemma iaf_layer_odd (hp : hparams) (iaf_idx : nat) (mel_en l : tensor3)
  (i : nat) :
  (0 < num_stages hp)%nat -> Nat.odd (width hp) = true ->
  iaf_layer hp iaf_idx mel_en l i = Err AssertionError.
Proof.
  intros Hst Hodd. unfold iaf_layer, layer_dilation.
  destruct (num_stages hp) as [|n]; [lia|]. simpl bind.
  rewrite gated_unit_odd by exact Hodd. reflexivity.
Qed.

Lemma iaf_layers_even (hp : hparams) (iaf_idx : nat) (mel_en : tensor3)
  (range : list nat) :
  (0 < num_stages hp)%nat -> Nat.even (width hp) = true ->
  forall l, exists l', iaf_layers hp iaf_idx mel_en l range = Ok l'.
Proof.
  intros Hst Hev.
  induction range as [|i range IH]; intros l; simpl; [eauto|].
  destruct (iaf_layer_even hp iaf_idx mel_en l i Hst Hev) as [l1 H1].
  rewrite H1. simpl. apply IH.
Qed.

Lemma halves_equal (d : tensor3) :
  Nat.even (channels d) = true -> wf3 d ->
  channels_ok (channels d / 2) (cells (slice_to (channels d / 2) d)) /\
  channels_ok (channels d / 2) (cells (slice_from (channels d / 2) d)).
Proof.
  intros Hev Hwf.
  apply Nat.even_spec in Hev. destruct Hev as [k Hk].
  assert (Hhalf : (channels d / 2 = k)%nat)
    by (rewrite Hk, Nat.mul_comm; apply Nat.div_mul; lia).
  rewrite Hhalf. unfold channels_ok, wf3 in *. simpl.
  split; rewrite Forall_map; (eapply Forall_impl; [|exact Hwf]);
    intros m [_ Hm]; rewrite Forall_map;
    (eapply Forall_impl; [|exact Hm]); intros v Hv; simpl in *.
  - rewrite length_firstn. lia.
  - rewrite length_skipn. lia.
Qed.

(** C9. Under a valid configuration ([iaf_idx] in range and
    [num_stages >= 1], so that the dilation is defined), the construction
    of a stage fails with the shape assertion exactly when it has a dilated
    convolution output (at least one layer) whose channel count, which is
    [width], is odd, and it returns a result otherwise; when the count is
    even the gated unit is [sigmoid] of the first half of the channels
    times [tanh] of the second half, the two halves having the same
    size. *)
Theorem gated_unit_parity (hp : hparams) (mel x : tensor3)
  (iaf_idx num_layers : nat) :
  nth_error (num_iaf_layers hp) iaf_idx = Some num_layers ->
  (0 < num_stages hp)%nat ->
  (forall l c dilation name ki,
     channels (_condition
                 (conv1d l (width hp) (filter_length hp) dilation name ki
                    (use_weight_norm hp)) c) = width hp) /\
  (_create_iaf hp mel x iaf_idx = Err AssertionError
   <-> (0 < num_layers)%nat /\ Nat.odd (width hp) = true) /\
  ((exists d, _create_iaf hp mel x iaf_idx = Ok d)
   <-> num_layers = 0%nat \/ Nat.even (width hp) = true) /\
  (forall d : tensor3,
     Nat.even (channels d) = true ->
     let m := (channels d / 2)%nat in
     gated_unit d
     = Ok (t3_zip Rmult (t3_map sigmoid (slice_to m d))
             (t3_map tanh (slice_from m d))) /\
     channels (slice_to m d) = m /\ channels (slice_from m d) = m /\
     (wf3 d -> channels_ok m (cells (slice_to m d)) /\
               channels_ok m (cells (slice_from m d)))).
Proof.
  intros Hnth Hst.
  split; [reflexivity|].
  assert (Hodd : (0 < num_layers)%nat -> Nat.odd (width hp) = true ->
                 _create_iaf hp mel x iaf_idx = Err AssertionError).
  { intros Hpos Hodd. unfold _create_iaf. rewrite Hnth.
    destruct num_layers as [|n]; [lia|]. simpl seq. simpl iaf_layers.
    rewrite iaf_layer_odd by assumption. reflexivity. }
  assert (Hok : num_layers = 0%nat \/ Nat.even (width hp) = true ->
                exists d, _create_iaf hp mel x iaf_idx = Ok d).
  { intros Hcase. unfold _create_iaf. rewrite Hnth.
    match goal with
    | |- context [iaf_layers ?a ?b ?c ?l ?r] =>
        assert (Hl : exists l', iaf_layers a b c l r = Ok l')
    end.
    { destruct Hcase as [Hzero|Hev].
      - subst num_layers. simpl. eauto.
      - now apply iaf_layers_even. }
    destruct Hl as [l' Hl']. rewrite Hl'. simpl bind.
    match goal with
    | |- context [scale_of ?m ?p] => destruct (scale_of m p) as [sc ls]
    end.
    eauto. }
  assert (Hparity : Nat.odd (width hp) = negb (Nat.even (width hp)))
    by reflexivity.
  split; [|split].
  - split.
    + intros Herr.
      destruct num_layers as [|n].
      { destruct (Hok (or_introl eq_refl)) as [d Hd]. congruence. }
      split; [lia|]. rewrite Hparity.
      destruct (Nat.even (width hp)) eqn:Hev; [|reflexivity].
      destruct (Hok (or_intror eq_refl)) as [d Hd]. congruence.
    + intros [Hpos Ho]. now apply Hodd.
  - split; [|exact Hok].
    intros [d Hd].
    destruct num_layers as [|n]; [now left|]. right.
    destruct (Nat.even (width hp)) eqn:Hev; [reflexivity|].
    rewrite Hodd in Hd; [discriminate|lia|].
    exact Hparity.
  - intros d Hev m. subst m.
    split; [now apply gated_unit_even|].
    split; [reflexivity|].
    split.
    + change (channels (slice_from (channels d / 2) d))
        with (channels d - channels d / 2)%nat.
      apply Nat.even_spec in Hev. destruct Hev as [k Hk].
      assert (Hhalf : (channels d / 2 = k)%nat)
        by (rewrite Hk, Nat.mul_comm; apply Nat.div_mul; lia).
      lia.
    + intros Hwf. now apply halves_equal.
Qed.

(** ** The total loss *)

Lemma dict_get_set (k k' : string) (v : R) (d : dict) :
  dict_get k (dict_set k' v d)
  = if String.eqb k k' then Some v else dict_get k d.
Proof.
  induction d as [|[k1 v1] d IH]; simpl.
  - reflexivity.
  - destruct (String.eqb_spec k' k1) as [Heq|Hne]; simpl.
    + subst k1. destruct (String.eqb k k'); reflexivity.
    + rewrite IH.
      destruct (String.eqb_spec k k1) as [Heq1|Hne1];
        destruct (String.eqb_spec k k') as [Heq2|Hne2];
        congruence.
Qed.

Lemma kl_loss_keys (hp : hparams) (st st' : rng) (ff : ff_dict) (n : nat)
  (kd : dict) :
  kl_loss hp st ff n = Ok (kd, st') ->
  exists kl h hpt,
    kd = [("kl_loss"%string, kl); ("H_Ps"%string, h); ("H_Ps_Pt"%string, hpt)].
Proof.
  unfold kl_loss. intros H.
  destruct (_logistic_0_1 st (batch2 (ff_x ff) * n) (dim1 (ff_x ff)))
    as [rl st1].
  destruct (reshape3 _ _ _ _) as [r|e]; [|discriminate].
  simpl in H. inversion H. eauto.
Qed.

Lemma power_loss_keys (a b : tensor2) (fl fs fft : nat) (pd : dict) :
  power_loss a b fl fs fft = Ok pd ->
  exists pl, pd = [("power_loss"%string, pl)].
Proof.
  unfold power_loss. intros H.
  destruct (crop_longer a b) as [[p o]|e]; [|discriminate].
  simpl in H. inversion H. eauto.
Qed.

(** C8. Once the entropy estimator has returned, the aggregator returns
    [loss = kl_loss + power_loss_factor * power_loss] when the factor is
    strictly positive (the spectral loss having been computed), and
    [loss = kl_loss] with no [power_loss] entry when the factor is zero or
    negative; the returned dictionary keeps every entry of the sub-losses
    and adds the total. *)
Theorem calculate_loss_total (hp : hparams) (st st' : rng) (ff : ff_dict)
  (kd : dict) :
  kl_loss hp st ff (num_samples hp) = Ok (kd, st') ->
  let plf := power_loss_factor hp in
  exists kl,
    dict_get "kl_loss" kd = Some kl /\
    (plf <= 0 ->
     exists d,
       calculate_loss hp st ff = Ok (d, st') /\
       dict_get "loss" d = Some kl /\
       dict_get "power_loss" d = None /\
       (forall k, k <> "loss"%string -> dict_get k d = dict_get k kd)) /\
    (0 < plf ->
     forall pd,
       power_loss (ff_x ff) (ff_wav ff) 800 200 1024 = Ok pd ->
       exists d pl,
         calculate_loss hp st ff = Ok (d, st') /\
         dict_get "power_loss" pd = Some pl /\
         dict_get "loss" d = Some (kl + plf * pl) /\
         dict_get "power_loss" d = Some pl /\
         (forall k, k <> "loss"%string -> k <> "power_loss"%string ->
                    dict_get k d = dict_get k kd)).
Proof.
  intros Hkl plf.
  destruct (kl_loss_keys _ _ _ _ _ _ Hkl) as (kl & h & hpt & Hkd).
  exists kl. split; [subst kd; reflexivity|].
  split.
  - intros Hle. exists (dict_set "loss" kl kd).
    split; [|split; [|split]].
    + unfold calculate_loss. rewrite Hkl. simpl bind.
      rewrite Hkd at 1. simpl dict_get. fold plf.
      destruct (Rlt_dec 0 plf); [lra|]. reflexivity.
    + rewrite dict_get_set. reflexivity.
    + subst kd. reflexivity.
    + intros k Hk. rewrite dict_get_set.
      destruct (String.eqb_spec k "loss"); [contradiction|reflexivity].
  - intros Hpos pd Hpd.
    destruct (power_loss_keys _ _ _ _ _ _ Hpd) as [pl Hpl].
    exists (dict_set "loss" (kl + plf * pl) (dict_set "power_loss" pl kd)), pl.
    split; [|split; [|split; [|split]]].
    + unfold calculate_loss. rewrite Hkl. simpl bind.
      rewrite Hkd at 1. simpl dict_get. fold plf.
      destruct (Rlt_dec 0 plf); [|lra].
      rewrite Hpd. simpl bind. rewrite Hpl. reflexivity.
    + subst pd. reflexivity.
    + rewrite dict_get_set. reflexivity.
    + rewrite !dict_get_set. reflexivity.
    + intros k Hk Hk'. rewrite !dict_get_set.
      destruct (String.eqb_spec k "loss"); [contradiction|].
      destruct (String.eqb_spec k "power_loss"); [contradiction|reflexivity].
Qed.

(** ** The Monte-Carlo samples of the estimator *)

Lemma tf_repeat_length {A : Type} (l : list A) (n : nat) :
  List.length (tf_repeat l n) = (List.length l * n)%nat.
Proof.
  unfold tf_repeat. induction l as [|a l IH]; simpl; [reflexivity|].
  now rewrite length_app, repeat_length, IH.
Qed.

Lemma tf_repeat_nth {A : Type} (l : list A) (n b s : nat) (d : A) :
  (s < n)%nat ->
  nth (b * n + s) (tf_repeat l n) d = nth b l d.
Proof.
  intros Hs. unfold tf_repeat. revert b.
  induction l as [|a l IH]; intros b; simpl.
  - now destruct (b * n + s)%nat, b.
  - destruct b as [|b]; simpl.
    + rewrite app_nth1 by (rewrite repeat_length; lia).
      apply nth_repeat_lt. exact Hs.
    + rewrite app_nth2 by (rewrite repeat_length; lia).
      rewrite repeat_length.
      replace (n + b * n + s - n)%nat with (b * n + s)%nat by lia.
      apply IH.
Qed.

Lemma zipWith_nth {A B C : Type} (f : A -> B -> C) (l : list A) (l' : list B)
  (i : nat) (da : A) (db : B) (dc : C) :
  (i < List.length l)%nat -> (i < List.length l')%nat ->
  nth i (zipWith f l l') dc = f (nth i l da) (nth i l' db).
Proof.
  revert l' i. induction l as [|a l IH]; intros [|b l'] [|i]; simpl;
    intros H1 H2; try lia; [reflexivity|].
  apply IH; lia.
Qed.

Lemma wf2_row (t : tensor2) (i : nat) :
  wf2 t -> (i < batch2 t)%nat -> List.length (nth i (rows t) []) = dim1 t.
Proof.
  unfold wf2, batch2. intros Hwf Hi.
  rewrite Forall_forall in Hwf. apply Hwf. now apply nth_In.
Qed.

Lemma zip2d_entry (f : R -> R -> R) (a b : tensor2) (i j : nat) :
  wf2 a -> wf2 b -> dim1 b = dim1 a ->
  (i < batch2 a)%nat -> (i < batch2 b)%nat -> (j < dim1 a)%nat ->
  entry (t2_zip f a b) i j = f (entry a i j) (entry b i j).
Proof.
  intros Ha Hb Hdim Hia Hib Hj. unfold entry, t2_zip, zip2d. simpl.
  rewrite (zipWith_nth (zipWith f) _ _ i [] [] []) by assumption.
  apply zipWith_nth.
  - rewrite wf2_row; assumption.
  - rewrite wf2_row, Hdim; assumption.
Qed.

Lemma tf_repeat2_wf (t : tensor2) (n : nat) : wf2 t -> wf2 (tf_repeat2 t n).
Proof.
  unfold wf2, tf_repeat2, tf_repeat. simpl. intros H.
  apply Forall_flat_map. eapply Forall_impl; [|exact H].
  intros r Hr. apply Forall_forall. intros r' Hin.
  apply repeat_spec in Hin. now subst r'.
Qed.

Lemma tf_repeat2_entry (t : tensor2) (n b s j : nat) :
  (s < n)%nat -> entry (tf_repeat2 t n) (b * n + s) j = entry t b j.
Proof.
  intros Hs. unfold entry, tf_repeat2. simpl.
  now rewrite tf_repeat_nth.
Qed.

Lemma t2_zip_wf (f : R -> R -> R) (a b : tensor2) :
  wf2 a -> wf2 b -> dim1 b = dim1 a -> wf2 (t2_zip f a b).
Proof.
  unfold wf2, t2_zip, zip2d. simpl. intros Ha Hb Hdim.
  revert Ha Hb. apply Forall_zipWith.
  intros r r' Hr Hr'. rewrite zipWith_length, Hr, Hr', Hdim.
  apply Nat.min_id.
Qed.

(** C5. The estimator builds its samples from the coefficients it is
    given: sample [s] of batch row [b] is
    [noise[b*S+s] * scale_tot[b] + mean_tot[b]], the row [b] of the
    coefficients of the forward pass being repeated for each of its [S]
    noise rows.  The stages are not run again: the estimator depends on the
    hyper-parameters only through the quantization mode, and not at all on
    the networks of the stages. *)
Theorem samples_reuse_coefficients (rl mean_tot scale_tot : tensor2)
  (S b s t : nat) :
  wf2 rl -> wf2 mean_tot -> wf2 scale_tot ->
  batch2 rl = (batch2 mean_tot * S)%nat ->
  batch2 scale_tot = batch2 mean_tot ->
  dim1 mean_tot = dim1 rl -> dim1 scale_tot = dim1 rl ->
  (b < batch2 mean_tot)%nat -> (s < S)%nat -> (t < dim1 rl)%nat ->
  entry (student_samples rl mean_tot scale_tot S) (b * S + s) t
  = entry rl (b * S + s) t * entry scale_tot b t + entry mean_tot b t /\
  (forall hp hp' st ff,
     use_mu_law hp = use_mu_law hp' ->
     kl_loss hp st ff S = kl_loss hp' st ff S) /\
  (forall cv ds sr cn hp st ff,
     @kl_loss (with_networks E cv ds sr cn) hp st ff S = kl_loss hp st ff S).
Proof.
  intros Hrl Hm Hsc Hb1 Hb2 Hd1 Hd2 Hb Hs Ht.
  assert (Hi : (b * S + s < batch2 mean_tot * S)%nat) by nia.
  split.
  - unfold student_samples.
    rewrite zip2d_entry; try assumption.
    + rewrite zip2d_entry; try assumption.
      * now rewrite !tf_repeat2_entry.
      * now apply tf_repeat2_wf.
      * lia.
      * unfold batch2, tf_repeat2. simpl. rewrite tf_repeat_length.
        fold (batch2 scale_tot). rewrite Hb2. exact Hi.
    + apply t2_zip_wf; [assumption|now apply tf_repeat2_wf|exact Hd2].
    + now apply tf_repeat2_wf.
    + unfold batch2, t2_zip, zip2d. simpl.
      rewrite zipWith_length, tf_repeat_length.
      fold (batch2 rl) (batch2 scale_tot). rewrite Hb1, Hb2, Nat.min_id.
      exact Hi.
    + unfold batch2, tf_repeat2. simpl. rewrite tf_repeat_length. exact Hi.
  - split.
    + intros hp hp' st ff Hmu.
      unfold kl_loss, teacher_log_probs, quant_chann. now rewrite Hmu.
    + reflexivity.
Qed.

(** ** The entropy estimate *)

Lemma Forall_take {A : Type} (P : A -> Prop) (n : nat) (l : list A) :
  Forall P l -> Forall P (firstn n l).
Proof.
  intros H. revert n.
  induction H as [|a l Ha _ IH]; intros [|n]; simpl; auto.
Qed.

Lemma Forall_drop {A : Type} (P : A -> Prop) (n : nat) (l : list A) :
  Forall P l -> Forall P (skipn n l).
Proof.
  intros H. revert n.
  induction H as [|a l Ha Hl IH]; intros [|n]; simpl; auto.
Qed.

Lemma sum_n_ext (n : nat) (f g : nat -> R) :
  (forall i, (i < n)%nat -> f i = g i) -> sum_n n f = sum_n n g.
Proof.
  induction n as [|n IH]; intros H; simpl; [reflexivity|].
  rewrite IH by (intros i Hi; apply H; lia).
  rewrite H by lia. reflexivity.
Qed.

Lemma sum_n_shift (n : nat) (f : nat -> R) :
  sum_n (S n) f = f 0%nat + sum_n n (fun j => f (S j)).
Proof.
  induction n as [|n IH].
  - simpl. ring.
  - change (sum_n (S (S n)) f) with (sum_n (S n) f + f (S n)).
    rewrite IH. simpl. ring.
Qed.

Lemma sum_list_nth (l : list R) :
  sum_list l = sum_n (List.length l) (fun j => nth j l 0).
Proof.
  induction l as [|a l IH].
  - reflexivity.
  - change (List.length (a :: l)) with (S (List.length l)).
    rewrite sum_n_shift.
    change (sum_list (a :: l)) with (a + sum_list l).
    rewrite IH. reflexivity.
Qed.

Lemma sum_list_app (a b : list R) :
  sum_list (a ++ b) = sum_list a + sum_list b.
Proof.
  unfold sum_list. induction a as [|x a IH]; simpl; [ring|].
  rewrite IH. ring.
Qed.

Lemma sum_concat (m : matrix) :
  sum_list (concat m)
  = sum_n (List.length m) (fun b => sum_list (nth b m [])).
Proof.
  induction m as [|r m IH].
  - reflexivity.
  - change (List.length (r :: m)) with (S (List.length m)).
    rewrite sum_n_shift. simpl. rewrite sum_list_app, IH. reflexivity.
Qed.

Lemma concat_wf_length (L : nat) (m : matrix) :
  Forall (fun r => List.length r = L) m ->
  List.length (concat m) = (List.length m * L)%nat.
Proof.
  induction 1 as [|r m Hr _ IH]; simpl; [reflexivity|].
  now rewrite length_app, Hr, IH.
Qed.

Lemma reduce_mean2_index (t : tensor2) :
  wf2 t ->
  reduce_mean2 (rows t) = mean_batch_time (batch2 t) (dim1 t) (entry t).
Proof.
  intros Hwf. unfold reduce_mean2, reduce_mean_list, mean_batch_time.
  rewrite sum_concat, (concat_wf_length (dim1 t)) by exact Hwf.
  fold (batch2 t). f_equal.
  apply sum_n_ext. intros b Hb.
  rewrite sum_list_nth, wf2_row by assumption. reflexivity.
Qed.

Lemma col_sum_length (L : nat) (m : matrix) :
  Forall (fun r => List.length r = L) m -> List.length (col_sum L m) = L.
Proof.
  unfold col_sum. induction 1 as [|r m Hr _ IH]; simpl.
  - apply repeat_length.
  - rewrite zipWith_length, Hr, IH. apply Nat.min_id.
Qed.

Lemma col_sum_nth (L : nat) (m : matrix) (j : nat) :
  Forall (fun r => List.length r = L) m -> (j < L)%nat ->
  nth j (col_sum L m) 0
  = sum_n (List.length m) (fun s => nth j (nth s m []) 0).
Proof.
  intros Hm Hj. induction Hm as [|r m Hr Hm IH].
  - simpl. unfold col_sum. simpl. apply nth_repeat.
  - change (List.length (r :: m)) with (S (List.length m)).
    rewrite sum_n_shift.
    change (nth j (zipWith Rplus r (col_sum L m)) 0
            = nth j r 0
              + sum_n (List.length m) (fun s => nth j (nth s m []) 0)).
    rewrite <- IH.
    apply zipWith_nth; [lia|].
    rewrite col_sum_length; assumption.
Qed.

Lemma chunks_length {A : Type} (B S : nat) (l : list A) :
  List.length (chunks B S l) = B.
Proof.
  revert l. induction B as [|B IH]; intros l; simpl; [reflexivity|].
  now rewrite IH.
Qed.

Lemma chunks_nth {A : Type} (B S b : nat) (l : list A) :
  (b < B)%nat -> nth b (chunks B S l) [] = firstn S (skipn (b * S) l).
Proof.
  revert b l. induction B as [|B IH]; intros b l Hb; [lia|].
  destruct b as [|b]; simpl chunks; simpl nth.
  - reflexivity.
  - rewrite IH by lia. rewrite skipn_skipn.
    do 2 f_equal. simpl. lia.
Qed.

Lemma chunk_rows (t : tensor2) (B S b : nat) :
  wf2 t -> batch2 t = (B * S)%nat -> (b < B)%nat ->
  let m := nth b (chunks B S (rows t)) [] in
  Forall (fun r => List.length r = dim1 t) m /\
  List.length m = S /\
  forall s, (s < S)%nat -> nth s m [] = nth (b * S + s) (rows t) [].
Proof.
  intros Hwf Hb Hlt m. subst m. rewrite chunks_nth by exact Hlt.
  unfold batch2 in Hb. unfold wf2 in Hwf.
  split; [|split].
  - now apply Forall_take, Forall_drop.
  - rewrite length_firstn, length_skipn. nia.
  - intros s Hs. rewrite nth_firstn.
    destruct (Nat.ltb_spec s S); [|lia].
    apply nth_skipn.
Qed.

Lemma reduce_mean_axis1_wf (t : tensor2) (B S : nat) :
  wf2 t -> batch2 t = (B * S)%nat ->
  wf2 (reduce_mean_axis1 (T3 S (dim1 t) (chunks B S (rows t)))).
Proof.
  intros Hwf Hb. unfold wf2, reduce_mean_axis1. simpl.
  rewrite Forall_map. apply Forall_forall. intros m Hin.
  apply (In_nth _ _ []) in Hin. destruct Hin as (b & Hlt & Hm).
  rewrite chunks_length in Hlt.
  destruct (chunk_rows t B S b Hwf Hb Hlt) as (Hrows & _ & _).
  rewrite Hm in Hrows.
  rewrite length_map. now apply col_sum_length.
Qed.

Lemma reduce_mean_axis1_entry (t : tensor2) (B S b j : nat) :
  wf2 t -> batch2 t = (B * S)%nat -> (b < B)%nat -> (j < dim1 t)%nat ->
  entry (reduce_mean_axis1 (T3 S (dim1 t) (chunks B S (rows t)))) b j
  = mean_n S (fun s => entry t (b * S + s) j).
Proof.
  intros Hwf Hb Hlt Hj. unfold entry, reduce_mean_axis1, mean_n. simpl.
  destruct (chunk_rows t B S b Hwf Hb Hlt) as (Hrows & Hlen & Hnth).
  set (f := fun m : matrix =>
              map (fun v : R => v / INR S) (col_sum (dim1 t) m)).
  change (nth j (nth b (map f (chunks B S (rows t))) []) 0
          = sum_n S (fun s => nth j (nth (b * S + s) (rows t) []) 0) / INR S).
  rewrite (nth_indep _ [] (f [])).
  2:{ rewrite length_map. unfold matrix. rewrite chunks_length. exact Hlt. }
  rewrite map_nth. unfold f.
  set (g := fun v : R => v / INR S).
  replace 0 with (g 0) at 1 by (unfold g; unfold Rdiv; ring).
  rewrite map_nth. unfold g.
  rewrite col_sum_nth by assumption.
  unfold matrix. rewrite Hlen. f_equal.
  apply sum_n_ext. intros s Hs. now rewrite Hnth.
Qed.

Lemma t2_map_wf (f : R -> R) (t : tensor2) : wf2 t -> wf2 (t2_map f t).
Proof.
  unfold wf2, t2_map, map2d. simpl. intros H.
  rewrite Forall_map. eapply Forall_impl; [|exact H].
  intros r Hr. simpl. now rewrite length_map.
Qed.

Lemma t2_map_entry (f : R -> R) (t : tensor2) (i j : nat) :
  wf2 t -> (i < batch2 t)%nat -> (j < dim1 t)%nat ->
  entry (t2_map f t) i j = f (entry t i j).
Proof.
  intros Hwf Hi Hj. unfold entry, t2_map, map2d. simpl.
  change (@nil R) with (map f []) at 1. rewrite map_nth.
  rewrite (nth_indep _ 0 (f 0))
    by (rewrite length_map, wf2_row; assumption).
  apply map_nth.
Qed.

(** C3. When the teacher log-likelihood has the shape [[B*S, L]] of the
    samples, the estimator returns [H_Ps = mean(log_scale_tot) + 2],
    [H_Ps_Pt] the mean over batch and time of the negated mean over the
    [S] samples of the teacher log-likelihood, and
    [kl_loss = H_Ps_Pt - H_Ps]. *)
Theorem kl_loss_values (hp : hparams) (st : rng) (ff : ff_dict) (S : nat) :
  let B := batch2 (ff_x ff) in
  let L := dim1 (ff_x ff) in
  let rl := fst (_logistic_0_1 st (B * S) L) in
  let st' := snd (_logistic_0_1 st (B * S) L) in
  let x_xp := student_samples rl (ff_mean_tot ff) (ff_scale_tot ff) S in
  let log_te_probs := teacher_log_probs hp ff x_xp S in
  let log_scale_tot := ff_log_scale_tot ff in
  wf2 log_te_probs -> batch2 log_te_probs = (B * S)%nat ->
  dim1 log_te_probs = L -> wf2 log_scale_tot ->
  let H_Ps :=
    mean_batch_time (batch2 log_scale_tot) (dim1 log_scale_tot)
      (entry log_scale_tot) + 2 in
  let H_Ps_Pt :=
    mean_batch_time B L
      (fun b t => - mean_n S (fun s => entry log_te_probs (b * S + s) t)) in
  kl_loss hp st ff S
  = Ok ([("kl_loss"%string, H_Ps_Pt - H_Ps); ("H_Ps"%string, H_Ps);
         ("H_Ps_Pt"%string, H_Ps_Pt)], st').
Proof.
  intros B L rl st' x_xp logp ls Hwf Hb Hd Hls H_Ps H_Ps_Pt.
  unfold kl_loss. fold B L.
  subst rl st' x_xp logp.
  destruct (_logistic_0_1 st (B * S) L) as [rl st1]. simpl fst in *.
  simpl snd.
  set (logp := teacher_log_probs hp ff _ S) in *.
  unfold reshape3. rewrite Hb, Hd, Nat.eqb_refl. simpl bind.
  clearbody logp L. subst L.
  assert (HH : reduce_mean2 (rows (ff_log_scale_tot ff)) + 2 = H_Ps).
  { subst H_Ps ls. now rewrite reduce_mean2_index. }
  set (m := reduce_mean_axis1 (T3 S (dim1 logp) (chunks B S (rows logp)))).
  assert (HP : reduce_mean2 (rows (t2_map Ropp m)) = H_Ps_Pt).
  { pose proof (reduce_mean_axis1_wf logp B S Hwf Hb) as Hwf1. fold m in Hwf1.
    assert (Hb1 : batch2 m = B).
    { unfold batch2, m, reduce_mean_axis1. simpl.
      rewrite length_map. apply chunks_length. }
    rewrite reduce_mean2_index by (now apply t2_map_wf).
    replace (batch2 (t2_map Ropp m)) with B
      by (unfold batch2, t2_map, map2d; simpl; rewrite length_map;
          symmetry; exact Hb1).
    change (dim1 (t2_map Ropp m)) with (dim1 logp).
    unfold H_Ps_Pt, mean_batch_time. f_equal.
    apply sum_n_ext. intros b Hlt.
    apply sum_n_ext. intros t Ht.
    rewrite t2_map_entry; [| exact Hwf1 | now rewrite Hb1 | exact Ht].
    f_equal. now apply reduce_mean_axis1_entry. }
  rewrite HH. unfold m in HP. simpl rows in HP. rewrite HP. reflexivity.
Qed.

(** ** The spectral loss *)

Lemma zipWith_diag {A B : Type} (f : A -> A -> B) (l : list A) :
  zipWith f l l = map (fun a => f a a) l.
Proof.
  induction l as [|a l IH]; simpl; [reflexivity|]. now rewrite IH.
Qed.

Lemma zip3d_comm (f : R -> R -> R) (a b : cube) :
  (forall u v, f u v = f v u) -> zip3d f a b = zip3d f b a.
Proof.
  intros Hf. unfold zip3d, zip2d.
  apply zipWith_comm. intros m m'.
  apply zipWith_comm. intros r r'.
  apply zipWith_comm. exact Hf.
Qed.

Lemma zip3d_diag (f : R -> R -> R) (a : cube) :
  zip3d f a a = map3d (fun v => f v v) a.
Proof.
  unfold zip3d, zip2d, map3d, map2d.
  rewrite zipWith_diag. apply map_ext. intros m.
  rewrite zipWith_diag. apply map_ext. intros r.
  apply zipWith_diag.
Qed.

Lemma sum_list_zero (l : list R) :
  Forall (fun v => 0 <= v <= 0) l -> sum_list l = 0.
Proof.
  unfold sum_list. induction 1 as [|v l Hv _ IH]; simpl; [reflexivity|].
  rewrite IH. lra.
Qed.

Lemma reduce_mean3_zero (c : cube) : within3 0 0 c -> reduce_mean3 c = 0.
Proof.
  intros H. unfold reduce_mean3, reduce_mean_list.
  rewrite sum_list_zero.
  - unfold Rdiv. ring.
  - apply Forall_concat. apply Forall_concat. exact H.
Qed.

Lemma spectral_distance_sym (p o : tensor2) (fl fs fft : nat) :
  spectral_distance p o fl fs fft = spectral_distance o p fl fs fft.
Proof.
  unfold spectral_distance. f_equal. f_equal.
  apply zip3d_comm. intros u v. unfold squared_difference. ring.
Qed.

Lemma spectral_distance_same (p : tensor2) (fl fs fft : nat) :
  spectral_distance p p fl fs fft = 0.
Proof.
  unfold spectral_distance.
  rewrite zip3d_diag, reduce_mean3_zero; [lra|].
  apply within3_map. intros v. unfold squared_difference. lra.
Qed.

(** C7. The spectral loss is exactly zero whenever the two waveforms are
    identical after the trimming, and its value does not change when the
    predicted and the reference waveform are exchanged. *)
Theorem power_loss_zero_symmetric (wav_x wav_wav : tensor2)
  (frame_length frame_shift fft_length : nat) :
  (forall pred_wav orig_wav,
     crop_longer wav_x wav_wav = Ok (pred_wav, orig_wav) ->
     pred_wav = orig_wav ->
     power_loss wav_x wav_wav frame_length frame_shift fft_length
     = Ok [("power_loss"%string, 0)]) /\
  power_loss wav_x wav_wav frame_length frame_shift fft_length
  = power_loss wav_wav wav_x frame_length frame_shift fft_length.
Proof.
  split.
  - intros p o Hcrop Heq. subst o. unfold power_loss.
    rewrite Hcrop. simpl bind. now rewrite spectral_distance_same.
  - unfold power_loss, crop_longer.
    set (p := Z.of_nat (dim1 wav_x)). set (o := Z.of_nat (dim1 wav_wav)).
    destruct (Z.ltb_spec o p) as [Hop|Hop];
      destruct (Z.ltb_spec p o) as [Hpo|Hpo]; try lia.
    + destruct (_trim wav_x (p - o)) as [x'|e]; [|reflexivity].
      simpl. now rewrite spectral_distance_sym.
    + destruct (_trim wav_wav (o - p)) as [w'|e]; [|reflexivity].
      simpl. now rewrite spectral_distance_sym.
    + simpl. now rewrite spectral_distance_sym.
Qed.

End Properties.

(** ** Further properties of the stages *)

Section Stages.

Context {E : Externals}.

Lemma scale_of_exp (log_mode : bool) (p : tensor3) :
  cells (fst (scale_of log_mode p))
  = map3d exp (cells (snd (scale_of log_mode p))) /\
  within3 (- 9) 7 (cells (snd (scale_of log_mode p))) /\
  steps (fst (scale_of log_mode p)) = steps (snd (scale_of log_mode p)) /\
  channels (fst (scale_of log_mode p)) = channels (snd (scale_of log_mode p)).
Proof.
  destruct log_mode; simpl.
  - split; [reflexivity|]. split; [|split; reflexivity].
    apply within3_map. intros v. apply clip_bounds. lra.
  - split; [|split; [|split; reflexivity]].
    + unfold map3d, map2d. rewrite !map_map.
      apply map_ext. intros m. rewrite !map_map.
      apply map_ext. intros r. rewrite !map_map.
      apply map_ext. intros v.
      symmetry. apply exp_ln.
      pose proof (clip_bounds (softplus v) _ _ exp_m9_le_7) as [H _].
      pose proof (exp_pos (- 9)). lra.
    + change (within3 (- 9) 7
                (map3d ln
                   (map3d (fun v => clip_by_value v (exp (- 9)) (exp 7))
                      (map3d softplus (cells p))))).
      apply within3_map_impl with (lo := exp (- 9)) (hi := exp 7).
      * intros v [H1 H2]. pose proof (exp_pos (- 9)).
        rewrite <- (ln_exp (- 9)) at 1. rewrite <- (ln_exp 7) at 1.
        split; apply ln_monotone; lra.
      * apply within3_map. intros v. apply clip_bounds, exp_m9_le_7.
Qed.

Lemma create_iaf_exp (hp : hparams) (mel x : tensor3) (iaf_idx : nat)
  (d : iaf_dict) :
  _create_iaf hp mel x iaf_idx = Ok d ->
  cells (iaf_scale d) = map3d exp (cells (iaf_log_scale d)) /\
  within3 (- 9) 7 (cells (iaf_log_scale d)) /\
  steps (iaf_scale d) = steps (iaf_log_scale d) /\
  channels (iaf_scale d) = channels (iaf_log_scale d).
Proof.
  unfold _create_iaf. intros H.
  destruct (nth_error (num_iaf_layers hp) iaf_idx) as [n|]; [|discriminate].
  destruct (iaf_layers _ _ _ _ _) as [l|e]; [|discriminate].
  simpl bind in H.
  match type of H with
  | context [scale_of ?m ?p] =>
      pose proof (scale_of_exp m p) as Hw; destruct (scale_of m p) as [sc ls]
  end.
  inversion H; subst d. exact Hw.
Qed.

(** X1. In both parameterizations a stage returns [scale = exp(log_scale)]
    entry by entry, with every [log_scale] within [[-9, 7]]. *)
Theorem stage_scale_exp_log_scale (hp : hparams) (mel x : tensor3)
  (iaf_idx : nat) (d : iaf_dict) :
  _create_iaf hp mel x iaf_idx = Ok d ->
  iaf_scale d = t3_map exp (iaf_log_scale d) /\
  within3 (- 9) 7 (cells (iaf_log_scale d)).
Proof.
  intros H.
  destruct (create_iaf_exp _ _ _ _ _ H) as (Hc & Hw & Hs & Hch).
  split; [|exact Hw].
  unfold t3_map. rewrite <- Hc, <- Hs, <- Hch.
  now destruct (iaf_scale d).
Qed.

Lemma pow2_divides (a b : nat) :
  (a <= b)%nat -> (Z.of_nat (2 ^ a) | 2 ^ Z.of_nat b)%Z.
Proof.
  intros Hab. exists (2 ^ Z.of_nat (b - a))%Z.
  rewrite Nat2Z.inj_pow. change (Z.of_nat 2) with 2%Z.
  rewrite <- Z.pow_add_r by lia. f_equal. lia.
Qed.

(** X2. With [num_stages >= 1] every layer has a dilation
    [2 ** (i % num_stages)] that is at least 1, divides the maximal dilation
    [2 ** (num_stages - 1)] and therefore divides the length of the noise
    drawn by [feed_forward]. *)
Theorem layer_dilation_divides_length (hp : hparams) (num_frames i : nat) :
  (1 <= num_stages hp)%nat ->
  exists dilation len,
    layer_dilation i (num_stages hp) = Ok dilation /\
    noise_length hp num_frames = Ok len /\
    (1 <= dilation)%nat /\
    (Z.of_nat dilation | 2 ^ (Z.of_nat (num_stages hp) - 1))%Z /\
    (Z.of_nat dilation | len)%Z.
Proof.
  intros Hst. unfold layer_dilation, noise_length, max_dilation_of.
  destruct (num_stages hp) as [|n] eqn:Hn; [lia|].
  do 2 eexists. split; [reflexivity|]. split; [reflexivity|].
  assert (Hmod : (i mod S n <= n)%nat).
  { pose proof (Nat.mod_upper_bound i (S n) ltac:(lia)). lia. }
  assert (Hdiv : (Z.of_nat (2 ^ (i mod S n)) | 2 ^ Z.of_nat n)%Z)
    by now apply pow2_divides.
  split; [|split].
  - pose proof (Nat.pow_nonzero 2 (i mod S n) ltac:(lia)). lia.
  - replace (Z.of_nat (S n) - 1)%Z with (Z.of_nat n) by lia. exact Hdiv.
  - eapply Z.divide_trans; [exact Hdiv|].
    apply Z.divide_factor_r.
Qed.

(** X3. A stage index beyond [num_iaf_layers] raises [IndexError]; with
    [num_stages = 0] a stage that has a layer raises [ZeroDivisionError]
    before the channel assertion is reached, whatever the width. *)
Theorem create_iaf_configuration_errors (hp : hparams) (mel x : tensor3)
  (iaf_idx : nat) :
  ((List.length (num_iaf_layers hp) <= iaf_idx)%nat ->
   _create_iaf hp mel x iaf_idx = Err IndexError) /\
  (forall n,
     nth_error (num_iaf_layers hp) iaf_idx = Some (S n) ->
     num_stages hp = 0%nat ->
     _create_iaf hp mel x iaf_idx = Err ZeroDivisionError).
Proof.
  split.
  - intros Hlen. unfold _create_iaf.
    apply nth_error_None in Hlen. now rewrite Hlen.
  - intros n Hnth Hst. unfold _create_iaf. rewrite Hnth.
    simpl seq. simpl iaf_layers. unfold iaf_layer. rewrite Hst. reflexivity.
Qed.


Lemma all3_zip (P Q S : R -> Prop) (f : R -> R -> R) (a b : cube) :
  (forall u v, P u -> Q v -> S (f u v)) ->
  all3 P a -> all3 Q b -> all3 S (zip3d f a b).
Proof.
  intros Hf. unfold all3, zip3d, zip2d.
  apply Forall_zipWith. intros m m'.
  apply Forall_zipWith. intros r r'.
  apply Forall_zipWith. exact Hf.
Qed.




(** X5. The sampler is the inverse of the logistic distribution function
    applied to the uniform draw: [sigmoid] of the noise gives the draw
    back. *)
Theorem logistic_inverse_cdf (st : rng) (batch_size len : nat) :
  uniform_in_range ->
  map2d sigmoid (rows (fst (_logistic_0_1 st batch_size len)))
  = fst (random_uniform st batch_size len (1 / 100000) (1 - 1 / 100000)).
Proof.
  intros Hu. unfold _logistic_0_1.
  specialize (Hu st batch_size len (1 / 100000) (1 - 1 / 100000) ltac:(lra)).
  destruct (random_uniform st batch_size len _ _) as [ru st']. simpl in *.
  rewrite logistic_rows. unfold map2d. rewrite map_map.
  rewrite <- (map_id ru) at 2. apply map_ext_in. intros r Hr.
  rewrite Forall_forall in Hu. specialize (Hu r Hr).
  rewrite map_map. rewrite <- (map_id r) at 2.
  apply map_ext_in. intros u Hin.
  rewrite Forall_forall in Hu. specialize (Hu u Hin).
  unfold sigmoid.
  replace (- (ln u - ln (1 - u))) with (ln (1 - u) + - ln u) by ring.
  rewrite exp_plus, exp_Ropp, !exp_ln by lra.
  field. lra.
Qed.

(** ** Further properties of the composed flow *)

Lemma zipWith_map_hom {A B : Type} (f : B -> B -> B) (h : A -> A -> A)
  (g : A -> B) (a b : list A) :
  (forall x y, f (g x) (g y) = g (h x y)) ->
  zipWith f (map g a) (map g b) = map g (zipWith h a b).
Proof.
  intros Hh. revert b.
  induction a as [|x a IH]; intros [|y b]; simpl; try reflexivity.
  now rewrite Hh, IH.
Qed.

Lemma zip3d_exp (a b : cube) :
  zip3d Rmult (map3d exp a) (map3d exp b) = map3d exp (zip3d Rplus a b).
Proof.
  unfold zip3d, zip2d, map3d, map2d.
  apply zipWith_map_hom. intros m m'.
  apply zipWith_map_hom. intros r r'.
  apply zipWith_map_hom. intros u v.
  symmetry. apply exp_plus.
Qed.

Lemma map3d_map3d (f g : R -> R) (c : cube) :
  map3d f (map3d g c) = map3d (fun v => f (g v)) c.
Proof.
  unfold map3d, map2d. rewrite map_map. apply map_ext. intros m.
  rewrite map_map. apply map_ext. intros r. apply map_map.
Qed.

Lemma map3d_ext (f g : R -> R) (c : cube) :
  (forall v, f v = g v) -> map3d f c = map3d g c.
Proof.
  intros H. unfold map3d, map2d.
  apply map_ext. intros m. apply map_ext. intros r. now apply map_ext.
Qed.

Lemma flow_step_exp (hp : hparams) (mel : tensor3) (s s' : flow_state)
  (iaf_idx : nat) :
  flow_step hp mel s iaf_idx = Ok s' ->
  acc_exp (fs_scale_tot s) (fs_log_scale_tot s) ->
  acc_exp (fs_scale_tot s') (fs_log_scale_tot s').
Proof.
  unfold flow_step. intros H Hinv.
  destruct (_create_iaf hp mel (fs_x s) iaf_idx) as [d|e] eqn:Hd;
    [|discriminate].
  simpl in H. inversion H; subst s'; clear H. simpl.
  destruct (create_iaf_exp _ _ _ _ _ Hd) as (Hc & _ & Hs & Hch).
  destruct (fs_scale_tot s) as [a|a], (fs_log_scale_tot s) as [b|b];
    simpl in *; try contradiction.
  - split; [exact Hs|]. split; [exact Hch|].
    rewrite Hc, !map3d_map3d. apply map3d_ext. intros v.
    subst a. symmetry. apply exp_plus.
  - destruct Hinv as (H1 & H2 & H3).
    split; [exact H1|]. split; [exact H2|].
    rewrite H3, Hc. apply zip3d_exp.
Qed.

Lemma flow_loop_exp (hp : hparams) (mel : tensor3) (range : list nat) :
  forall s s' : flow_state,
  flow_loop hp mel s range = Ok s' ->
  acc_exp (fs_scale_tot s) (fs_log_scale_tot s) ->
  acc_exp (fs_scale_tot s') (fs_log_scale_tot s').
Proof.
  induction range as [|i range IH]; intros s s' H Hinv; simpl in H.
  - inversion H; subst s'. exact Hinv.
  - destruct (flow_step hp mel s i) as [s1|e] eqn:Hstep; [|discriminate].
    simpl in H. eapply IH; [exact H|].
    eapply flow_step_exp; eauto.
Qed.

Lemma Rmin_exp (v b : R) : Rmin (exp v) (exp b) = exp (Rmin v b).
Proof.
  unfold Rmin.
  destruct (Rle_dec v b) as [Hle|Hgt].
  - destruct (Rle_dec (exp v) (exp b)) as [_|Hn]; [reflexivity|].
    exfalso. apply Hn. now apply exp_monotone.
  - destruct (Rle_dec (exp v) (exp b)) as [Hle|_]; [|reflexivity].
    exfalso. apply Hgt.
    destruct Hle as [Hlt|Heq].
    + left. now apply exp_lt_inv.
    + right. now apply exp_inv.
Qed.

Lemma finish_inv (x : tensor2) (s : flow_state) (r : ff_result) :
  finish x s = Ok r ->
  exists M S L,
    fs_mean_tot s = Tn M /\ fs_scale_tot s = Tn S /\
    fs_log_scale_tot s = Tn L /\
    out_mean_tot r = T2 (steps M) (map (@concat R) (cells M)) /\
    out_scale_tot r
    = T2 (steps S)
         (map (@concat R) (map3d (fun v => Rmin v (exp 7)) (cells S))) /\
    out_log_scale_tot r
    = T2 (steps L) (map (@concat R) (map3d (fun v => Rmin v 7) (cells L))) /\
    out_rand_input r = x /\
    out_x r
    = t2_zip Rplus (t2_zip Rmult x (out_scale_tot r)) (out_mean_tot r).
Proof.
  unfold finish. intros H.
  destruct (fs_mean_tot s) as [|M]; [discriminate|].
  destruct (fs_scale_tot s) as [|S]; [simpl in H|].
  { destruct (Nat.eqb (channels M) 1); discriminate. }
  destruct (fs_log_scale_tot s) as [|L]; [simpl in H|].
  { destruct (Nat.eqb (channels M) 1); [|discriminate].
    simpl in H. destruct (Nat.eqb (channels S) 1); discriminate. }
  simpl in H.
  destruct (Nat.eqb (channels M) 1); [|discriminate]. simpl in H.
  destruct (Nat.eqb (channels S) 1); [|discriminate]. simpl in H.
  destruct (Nat.eqb (channels L) 1); [|discriminate]. simpl in H.
  inversion H; subst r; clear H. simpl.
  exists M, S, L. repeat split; reflexivity.
Qed.

(** X6. The two totals returned by [feed_forward] agree after their
    clips: [scale_tot = exp(log_scale_tot)] entry by entry, and no entry of
    [log_scale_tot] exceeds 7. *)
Theorem totals_consistent (hp : hparams) (st st' : rng) (mel : tensor3)
  (r : ff_result) :
  feed_forward hp st mel = Ok (r, st') ->
  out_scale_tot r = t2_map exp (out_log_scale_tot r) /\
  Forall (Forall (fun v => v <= 7)) (rows (out_log_scale_tot r)).
Proof.
  intros Hff.
  destruct (feed_forward_inv _ _ _ _ _ Hff)
    as (len & x & s & _ & _ & _ & Hrun & Hfin).
  unfold run_stages in Hrun.
  apply flow_loop_exp in Hrun; [|simpl; symmetry; apply exp_0].
  destruct (finish_inv _ _ _ Hfin)
    as (M & S & L & _ & HS & HL & _ & Hsc & Hls & _).
  rewrite HS, HL in Hrun. simpl in Hrun.
  destruct Hrun as (Hst & _ & Hcells).
  rewrite Hsc, Hls. unfold t2_map. simpl. split.
  - rewrite Hst. f_equal.
    rewrite Hcells, !map3d_map3d.
    unfold map2d, map3d, map2d. rewrite !map_map.
    apply map_ext. intros m. rewrite concat_map, map_map.
    f_equal. apply map_ext. intros v'. rewrite map_map.
    apply map_ext. intros v. apply Rmin_exp.
  - unfold map3d. rewrite map_map, Forall_map.
    apply Forall_forall. intros m _.
    apply Forall_concat. unfold map2d.
    rewrite Forall_map. apply Forall_forall. intros v' _.
    rewrite Forall_map. apply Forall_forall. intros v _.
    apply Rmin_r.
Qed.

(** X7. With an empty list of stages [feed_forward] returns no result:
    the accumulators are still Python floats when they are squeezed. *)
Theorem feed_forward_without_stages (hp : hparams) (st : rng)
  (mel : tensor3) :
  num_iaf_layers hp = [] ->
  exists e, feed_forward hp st mel = Err e.
Proof.
  intros Hnil. unfold feed_forward.
  destruct (noise_length hp (steps mel)) as [len|e]; [|simpl; eauto].
  simpl bind. destruct (len <? 0)%Z; [eauto|].
  destruct (_logistic_0_1 st (batch3 mel) (Z.to_nat len)) as [x st1].
  unfold run_stages. rewrite Hnil. simpl. eauto.
Qed.

(** ** Shapes *)

Lemma cube_shaped_map (f : R -> R) (b t c : nat) (x : cube) :
  cube_shaped b t c x -> cube_shaped b t c (map3d f x).
Proof.
  intros [Hb Hx]. unfold cube_shaped, map3d, map2d. split.
  - now rewrite length_map.
  - rewrite Forall_map. eapply Forall_impl; [|exact Hx].
    intros m [Hm Hv]. simpl. rewrite length_map. split; [exact Hm|].
    rewrite Forall_map. eapply Forall_impl; [|exact Hv].
    intros v Hlen. simpl. now rewrite length_map.
Qed.

Lemma cube_shaped_zip (f : R -> R -> R) (b t c : nat) (x y : cube) :
  cube_shaped b t c x -> cube_shaped b t c y ->
  cube_shaped b t c (zip3d f x y).
Proof.
  intros [Hbx Hx] [Hby Hy]. unfold cube_shaped, zip3d, zip2d. split.
  - rewrite zipWith_length. unfold matrix. rewrite Hbx, Hby.
    apply Nat.min_id.
  - revert Hx Hy. apply Forall_zipWith.
    intros m m' [Hm Hv] [Hm' Hv']. split.
    + rewrite zipWith_length, Hm, Hm'. apply Nat.min_id.
    + revert Hv Hv'. apply Forall_zipWith.
      intros v v' Hl Hl'. rewrite zipWith_length, Hl, Hl'. apply Nat.min_id.
Qed.

Lemma cube_shaped_slices (b t c m : nat) (x : cube) :
  (m <= c)%nat -> cube_shaped b t c x ->
  cube_shaped b t m (map (map (firstn m)) x) /\
  cube_shaped b t (c - m) (map (map (skipn m)) x).
Proof.
  intros Hm [Hb Hx]. unfold cube_shaped.
  split; (split; [now rewrite length_map|]);
    rewrite Forall_map; (eapply Forall_impl; [|exact Hx]);
    intros r [Hr Hv]; simpl; rewrite length_map; (split; [exact Hr|]);
    rewrite Forall_map; (eapply Forall_impl; [|exact Hv]);
    intros v Hl; cbv beta in Hl |- *.
  - rewrite length_firstn. lia.
  - rewrite length_skipn. lia.
Qed.

Lemma shaped3_map (f : R -> R) (b t c : nat) (x : tensor3) :
  shaped3 b t c x -> shaped3 b t c (t3_map f x).
Proof.
  intros (Hs & Hc & Hx). unfold shaped3, t3_map. simpl.
  split; [exact Hs|]. split; [exact Hc|]. now apply cube_shaped_map.
Qed.

Lemma shaped3_zip (f : R -> R -> R) (b t c : nat) (x y : tensor3) :
  shaped3 b t c x -> shaped3 b t c y -> shaped3 b t c (t3_zip f x y).
Proof.
  intros (Hs & Hc & Hx) (_ & _ & Hy). unfold shaped3, t3_zip. simpl.
  split; [exact Hs|]. split; [exact Hc|]. now apply cube_shaped_zip.
Qed.

Section ShapeContract.

Hypothesis contract : shape_contract.

Lemma conv1d_shaped (x : tensor3) (nf fl dil : nat) (name : conv_name)
  (ki : option (R * R)) (wn : bool) (b t c : nat) :
  shaped3 b t c x -> shaped3 b t nf (conv1d x nf fl dil name ki wn).
Proof.
  intros Hx. destruct contract as (_ & Hconv & _).
  unfold shaped3, conv1d. simpl.
  split; [apply Hx|]. split; [reflexivity|]. eapply Hconv; exact Hx.
Qed.

Lemma shift_right_shaped (x : tensor3) (b t c : nat) :
  shaped3 b t c x -> shaped3 b t c (shift_right x).
Proof.
  intros Hx. destruct contract as (_ & _ & Hshift & _).
  unfold shaped3, shift_right. simpl.
  split; [apply Hx|]. split; [apply Hx|]. now apply Hshift.
Qed.

Lemma condition_shaped (x enc : tensor3) (b t c : nat) :
  shaped3 b t c x -> shaped3 b t c (_condition x enc).
Proof.
  intros Hx. destruct contract as (_ & _ & _ & Hcond).
  unfold shaped3, _condition. simpl.
  split; [apply Hx|]. split; [apply Hx|]. now apply Hcond.
Qed.

Lemma gated_unit_shaped (d g : tensor3) (b t c : nat) :
  shaped3 b t c d -> gated_unit d = Ok g -> shaped3 b t (c / 2) g.
Proof.
  intros (Hs & Hc & Hx). unfold gated_unit. rewrite parity_test.
  destruct (Nat.even (channels d)) eqn:Hev; [|discriminate].
  intros H. injection H as H. subst g.
  apply Nat.even_spec in Hev. destruct Hev as [k Hk].
  assert (Hhalf : (channels d / 2 = k)%nat)
    by (rewrite Hk, Nat.mul_comm; apply Nat.div_mul; lia).
  change (fst (Nat.divmod (channels d) 1 0 1)) with (channels d / 2)%nat.
  rewrite <- Hc, !Hhalf.
  destruct (cube_shaped_slices b t c k (cells d) ltac:(lia) Hx) as [H1 H2].
  replace (c - k)%nat with k in H2 by lia.
  unfold shaped3, t3_zip, t3_map, slice_to, slice_from.
  cbn [steps channels cells].
  split; [exact Hs|]. split; [reflexivity|].
  apply cube_shaped_zip; now apply cube_shaped_map.
Qed.

Lemma iaf_layer_shaped (hp : hparams) (iaf_idx i : nat)
  (mel_en l l' : tensor3) (b t : nat) :
  shaped3 b t (width hp) l ->
  iaf_layer hp iaf_idx mel_en l i = Ok l' ->
  shaped3 b t (width hp) l'.
Proof.
  intros Hl. unfold iaf_layer.
  destruct (layer_dilation i (num_stages hp)) as [dil|e]; [|discriminate].
  simpl bind.
  match goal with
  | |- context [gated_unit ?d] =>
      destruct (gated_unit d) as [g|e] eqn:Hg; [|discriminate];
      assert (Hd : shaped3 b t (width hp) d)
        by (apply condition_shaped; eapply conv1d_shaped; exact Hl)
  end.
  pose proof (gated_unit_shaped _ _ _ _ _ Hd Hg) as Hgs.
  simpl. intros H. injection H as H. subst l'.
  apply shaped3_zip; [exact Hl|]. eapply conv1d_shaped. exact Hgs.
Qed.

Lemma iaf_layers_shaped (hp : hparams) (iaf_idx : nat) (mel_en : tensor3)
  (b t : nat) (range : list nat) :
  forall l l',
  shaped3 b t (width hp) l ->
  iaf_layers hp iaf_idx mel_en l range = Ok l' ->
  shaped3 b t (width hp) l'.
Proof.
  induction range as [|i range IH]; intros l l' Hl H; simpl in H.
  - injection H as H. now subst l'.
  - destruct (iaf_layer hp iaf_idx mel_en l i) as [l1|e] eqn:H1;
      [|discriminate].
    simpl in H. eapply IH; [|exact H].
    eapply iaf_layer_shaped; eauto.
Qed.

Lemma scale_of_shaped (log_mode : bool) (p : tensor3) (b t c : nat) :
  shaped3 b t c p ->
  shaped3 b t c (fst (scale_of log_mode p)) /\
  shaped3 b t c (snd (scale_of log_mode p)).
Proof.
  intros Hp. destruct log_mode; simpl; split;
    repeat apply shaped3_map; exact Hp.
Qed.

Lemma create_iaf_shaped (hp : hparams) (mel x : tensor3) (iaf_idx : nat)
  (d : iaf_dict) (b t : nat) :
  shaped3 b t 1 x ->
  _create_iaf hp mel x iaf_idx = Ok d ->
  shaped3 b t 1 (iaf_x d) /\ shaped3 b t 1 (iaf_mean d) /\
  shaped3 b t 1 (iaf_scale d) /\ shaped3 b t 1 (iaf_log_scale d).
Proof.
  intros Hx. unfold _create_iaf.
  destruct (nth_error (num_iaf_layers hp) iaf_idx) as [n|]; [|discriminate].
  match goal with
  | |- context [iaf_layers ?a ?i ?m ?l0 ?r] =>
      destruct (iaf_layers a i m l0 r) as [l|e] eqn:Hl; [|discriminate];
      assert (Hl0 : shaped3 b t (width hp) l0)
        by (eapply conv1d_shaped; apply shift_right_shaped; exact Hx)
  end.
  pose proof (iaf_layers_shaped _ _ _ _ _ _ _ _ Hl0 Hl) as Hls.
  simpl bind.
  match goal with
  | |- context [scale_of ?m (conv1d ?h _ _ _ _ _ _)] =>
      assert (Hh : shaped3 b t (width hp) h)
        by (apply shaped3_map, condition_shaped; eapply conv1d_shaped;
            apply shaped3_map; exact Hls)
  end.
  match goal with
  | |- context [scale_of ?m ?p] =>
      assert (Hp : shaped3 b t 1 p) by (eapply conv1d_shaped; exact Hh);
      pose proof (scale_of_shaped m p _ _ _ Hp) as [Hsc Hlsc];
      destruct (scale_of m p) as [sc ls]
  end.
  intros H. injection H as H. subst d.
  cbn [iaf_x iaf_mean iaf_scale iaf_log_scale fst snd] in *.
  match goal with
  | |- context [t3_zip Rplus (t3_zip Rmult x sc) ?mean] =>
      assert (Hm : shaped3 b t 1 mean) by (eapply conv1d_shaped; exact Hh)
  end.
  split; [|split; [exact Hm|split; [exact Hsc|exact Hlsc]]].
  apply shaped3_zip; [apply shaped3_zip|]; assumption.
Qed.

Lemma acc_zip_shaped (f : R -> R -> R) (a : acc) (x : tensor3) (b t : nat) :
  acc_shaped b t a -> shaped3 b t 1 x -> shaped3 b t 1 (acc_zip f a x).
Proof.
  destruct a as [r|y]; simpl; intros Ha Hx.
  - now apply shaped3_map.
  - now apply shaped3_zip.
Qed.

Lemma flow_step_shaped (hp : hparams) (mel : tensor3) (s s' : flow_state)
  (iaf_idx b t : nat) :
  flow_step hp mel s iaf_idx = Ok s' ->
  shaped3 b t 1 (fs_x s) /\ acc_shaped b t (fs_mean_tot s) /\
  acc_shaped b t (fs_scale_tot s) /\ acc_shaped b t (fs_log_scale_tot s) ->
  shaped3 b t 1 (fs_x s') /\ acc_shaped b t (fs_mean_tot s') /\
  acc_shaped b t (fs_scale_tot s') /\ acc_shaped b t (fs_log_scale_tot s').
Proof.
  unfold flow_step. intros H (Hx & HM & HS & HL).
  destruct (_create_iaf hp mel (fs_x s) iaf_idx) as [d|e] eqn:Hd;
    [|discriminate].
  simpl in H. injection H as H. subst s'.
  destruct (create_iaf_shaped _ _ _ _ _ _ _ Hx Hd) as (Hdx & Hdm & Hds & Hdl).
  cbn [fs_x fs_mean_tot fs_scale_tot fs_log_scale_tot acc_shaped].
  split; [exact Hdx|]. split; [|split].
  - apply shaped3_zip; [exact Hdm|]. now apply acc_zip_shaped.
  - now apply acc_zip_shaped.
  - now apply acc_zip_shaped.
Qed.

Lemma flow_loop_shaped (hp : hparams) (mel : tensor3) (b t : nat)
  (range : list nat) :
  forall s s' : flow_state,
  flow_loop hp mel s range = Ok s' ->
  shaped3 b t 1 (fs_x s) /\ acc_shaped b t (fs_mean_tot s) /\
  acc_shaped b t (fs_scale_tot s) /\ acc_shaped b t (fs_log_scale_tot s) ->
  shaped3 b t 1 (fs_x s') /\ acc_shaped b t (fs_mean_tot s') /\
  acc_shaped b t (fs_scale_tot s') /\ acc_shaped b t (fs_log_scale_tot s').
Proof.
  induction range as [|i range IH]; intros s s' H Hinv; simpl in H.
  - injection H as H. now subst s'.
  - destruct (flow_step hp mel s i) as [s1|e] eqn:Hstep; [|discriminate].
    simpl in H. eapply IH; [exact H|].
    eapply flow_step_shaped; eauto.
Qed.

Lemma logistic_shaped (st : rng) (n len : nat) :
  shaped2 n len (fst (_logistic_0_1 st n len)).
Proof.
  destruct contract as (Hru & _).
  specialize (Hru st n len (1 / 100000) (1 - 1 / 100000)).
  unfold _logistic_0_1.
  destruct (random_uniform st n len _ _) as [ru st']. simpl in *.
  rewrite logistic_rows. destruct Hru as [Hn Hrows].
  unfold shaped2, matrix_shaped, map2d. simpl.
  split; [reflexivity|]. split; [now rewrite length_map|].
  rewrite Forall_map. eapply Forall_impl; [|exact Hrows].
  intros r Hr. simpl. now rewrite length_map.
Qed.

End ShapeContract.

Lemma expand_dims_shaped (x : tensor2) (b t : nat) :
  shaped2 b t x -> shaped3 b t 1 (expand_dims x).
Proof.
  intros (Hd & Hb & Hrows). unfold shaped3, cube_shaped, expand_dims. simpl.
  split; [exact Hd|]. split; [reflexivity|].
  split; [now rewrite length_map|].
  rewrite Forall_map. eapply Forall_impl; [|exact Hrows].
  intros r Hr. simpl. rewrite length_map. split; [exact Hr|].
  rewrite Forall_map. apply Forall_forall. intros v _. reflexivity.
Qed.

Lemma squeeze_shaped (a : acc) (y : tensor2) (b t : nat) :
  squeeze a = Ok y -> acc_shaped b t a -> shaped2 b t y.
Proof.
  destruct a as [r|x]; simpl; [discriminate|].
  destruct (Nat.eqb (channels x) 1); [|discriminate].
  intros H (Hs & _ & Hb & Hx). injection H as H. subst y.
  unfold shaped2, matrix_shaped. simpl.
  split; [exact Hs|]. split; [now rewrite length_map|].
  rewrite Forall_map. eapply Forall_impl; [|exact Hx].
  intros m [Hm Hv]. simpl.
  rewrite (concat_wf_length 1) by exact Hv. lia.
Qed.

Lemma acc_minimum_shaped (a : acc) (bound : R) (b t : nat) :
  acc_shaped b t a -> acc_shaped b t (acc_minimum a bound).
Proof.
  destruct a as [r|x]; simpl; [trivial|]. apply shaped3_map.
Qed.

Lemma t2_zip_shaped (f : R -> R -> R) (x y : tensor2) (b t : nat) :
  shaped2 b t x -> shaped2 b t y -> shaped2 b t (t2_zip f x y).
Proof.
  intros (Hd & Hb & Hx) (_ & Hb' & Hy).
  unfold shaped2, matrix_shaped, t2_zip, zip2d. simpl.
  split; [exact Hd|]. split.
  - rewrite zipWith_length, Hb, Hb'. apply Nat.min_id.
  - revert Hx Hy. apply Forall_zipWith.
    intros r r' Hr Hr'. rewrite zipWith_length, Hr, Hr'. apply Nat.min_id.
Qed.

Lemma shaped2_wf (x : tensor2) (b t : nat) :
  shaped2 b t x -> wf2 x /\ batch2 x = b /\ dim1 x = t.
Proof.
  intros (Hd & Hb & Hrows). unfold wf2, batch2.
  rewrite Hd. auto.
Qed.

Lemma stages_shaped (hp : hparams) (mel : tensor3) (x : tensor2)
  (s : flow_state) (b t : nat) :
  shape_contract -> shaped2 b t x -> run_stages hp mel x = Ok s ->
  acc_shaped b t (fs_mean_tot s) /\ acc_shaped b t (fs_scale_tot s) /\
  acc_shaped b t (fs_log_scale_tot s).
Proof.
  intros Hc Hx Hrun. unfold run_stages in Hrun.
  apply (flow_loop_shaped Hc hp mel b t) in Hrun.
  - apply Hrun.
  - simpl. split; [now apply expand_dims_shaped|]. auto.
Qed.

Lemma finish_shaped (x : tensor2) (s : flow_state) (r : ff_result)
  (b t : nat) :
  shaped2 b t x ->
  acc_shaped b t (fs_mean_tot s) /\ acc_shaped b t (fs_scale_tot s) /\
  acc_shaped b t (fs_log_scale_tot s) ->
  finish x s = Ok r ->
  shaped2 b t (out_x r) /\ shaped2 b t (out_mean_tot r) /\
  shaped2 b t (out_scale_tot r) /\ shaped2 b t (out_log_scale_tot r) /\
  shaped2 b t (out_rand_input r).
Proof.
  intros Hxs (HM & HS & HL) Hfin. unfold finish in Hfin.
  destruct (squeeze (fs_mean_tot s)) as [m|] eqn:Hm; [|discriminate].
  simpl bind in Hfin.
  destruct (squeeze (acc_minimum (fs_scale_tot s) (exp 7))) as [sc|] eqn:Hsc;
    [|discriminate].
  simpl bind in Hfin.
  destruct (squeeze (acc_minimum (fs_log_scale_tot s) 7)) as [ls|] eqn:Hls;
    [|discriminate].
  simpl in Hfin. injection Hfin as Hfin. subst r. simpl.
  pose proof (squeeze_shaped _ _ _ _ Hm HM) as Hm'.
  pose proof (squeeze_shaped _ _ _ _ Hsc (acc_minimum_shaped _ _ _ _ HS))
    as Hsc'.
  pose proof (squeeze_shaped _ _ _ _ Hls (acc_minimum_shaped _ _ _ _ HL))
    as Hls'.
  repeat (split; [first [assumption
                        | apply t2_zip_shaped; [apply t2_zip_shaped|];
                          assumption]|]).
  exact Hxs.
Qed.

(** X8. When the collaborators respect their shape contracts, every
    tensor that [feed_forward] returns has the shape [[batch, length]] of
    the noise: as many rows as the mel input has batch rows, each with the
    aligned length. *)
Theorem feed_forward_shapes (hp : hparams) (st st' : rng) (mel : tensor3)
  (r : ff_result) :
  shape_contract ->
  feed_forward hp st mel = Ok (r, st') ->
  exists len,
    noise_length hp (steps mel) = Ok len /\ (0 <= len)%Z /\
    shaped2 (batch3 mel) (Z.to_nat len) (out_x r) /\
    shaped2 (batch3 mel) (Z.to_nat len) (out_mean_tot r) /\
    shaped2 (batch3 mel) (Z.to_nat len) (out_scale_tot r) /\
    shaped2 (batch3 mel) (Z.to_nat len) (out_log_scale_tot r) /\
    shaped2 (batch3 mel) (Z.to_nat len) (out_rand_input r).
Proof.
  intros Hc Hff.
  destruct (feed_forward_inv _ _ _ _ _ Hff)
    as (len & x & s & Hlen & Hpos & Hx & Hrun & Hfin).
  exists len. split; [exact Hlen|]. split; [exact Hpos|].
  assert (Hxs : shaped2 (batch3 mel) (Z.to_nat len) x).
  { pose proof (logistic_shaped Hc st (batch3 mel) (Z.to_nat len)) as H.
    now rewrite Hx in H. }
  eapply finish_shaped; [exact Hxs| |exact Hfin].
  eapply stages_shaped; eassumption.
Qed.

Lemma scale_tot_within (hp : hparams) (st st' : rng) (mel : tensor3)
  (r : ff_result) :
  feed_forward hp st mel = Ok (r, st') ->
  within (exp (- 9 * INR (List.length (num_iaf_layers hp)))) (exp 7)
    (rows (out_scale_tot r)).
Proof.
  intros Hff.
  destruct (feed_forward_inv _ _ _ _ _ Hff)
    as (len & x & s & _ & _ & _ & Hrun & Hfin).
  unfold run_stages in Hrun.
  apply flow_loop_scale with (n := 0%nat) in Hrun.
  2:{ simpl. rewrite !Rmult_0_r, exp_0. lra. }
  rewrite length_seq in Hrun. simpl in Hrun.
  unfold finish in Hfin.
  destruct (squeeze (fs_mean_tot s)) as [m|]; [|discriminate].
  simpl bind in Hfin.
  destruct (squeeze (acc_minimum (fs_scale_tot s) (exp 7))) as [sc|] eqn:Hsq;
    [|discriminate].
  simpl bind in Hfin.
  destruct (squeeze (acc_minimum (fs_log_scale_tot s) 7)); [|discriminate].
  simpl in Hfin. injection Hfin as Hfin. subst r. simpl.
  eapply squeeze_within; [exact Hsq|].
  eapply acc_minimum_within; [|exact Hrun].
  apply exp_monotone.
  pose proof (pos_INR (List.length (num_iaf_layers hp))). lra.
Qed.

Lemma Forall2d_entry (P : R -> Prop) (t : tensor2) (i j : nat) :
  Forall (Forall P) (rows t) -> wf2 t ->
  (i < batch2 t)%nat -> (j < dim1 t)%nat -> P (entry t i j).
Proof.
  intros HP Hwf Hi Hj. unfold entry.
  rewrite Forall_forall in HP.
  assert (Hin : In (nth i (rows t) []) (rows t)) by now apply nth_In.
  specialize (HP _ Hin). rewrite Forall_forall in HP.
  apply HP. apply nth_In. rewrite wf2_row; assumption.
Qed.

Lemma noise_hi_reach (n s : R) :
  noise_lo <= n < noise_hi -> 0 <= s <= exp 7 ->
  Rabs (n * s) <= exp 7 * noise_hi.
Proof.
  intros [Hlo Hhi] [Hs0 Hs7].
  assert (Hsym : noise_lo = - noise_hi) by (unfold noise_lo, noise_hi; lra).
  rewrite Hsym in Hlo.
  apply Rabs_le. split; nra.
Qed.

(** X9. Under the shape and range contracts of the collaborators, every
    entry of the sample returned by [feed_forward] is
    [noise * scale_tot + mean_tot] at that entry and lies within
    [exp(7) * (log(1 - 1e-5) - log(1e-5))] of [mean_tot]. *)
Theorem sample_within_reach (hp : hparams) (st st' : rng) (mel : tensor3)
  (r : ff_result) (i j : nat) :
  shape_contract -> uniform_in_range ->
  feed_forward hp st mel = Ok (r, st') ->
  (i < batch2 (out_x r))%nat -> (j < dim1 (out_x r))%nat ->
  entry (out_x r) i j
  = entry (out_rand_input r) i j * entry (out_scale_tot r) i j
    + entry (out_mean_tot r) i j /\
  Rabs (entry (out_x r) i j - entry (out_mean_tot r) i j)
  <= exp 7 * noise_hi.
Proof.
  intros Hc Hu Hff Hi Hj.
  destruct (feed_forward_inv _ _ _ _ _ Hff)
    as (len & x0 & s0 & _ & _ & Hx0 & Hrun0 & Hfin0).
  assert (Hxs : shaped2 (batch3 mel) (Z.to_nat len) x0).
  { pose proof (logistic_shaped Hc st (batch3 mel) (Z.to_nat len)) as H.
    now rewrite Hx0 in H. }
  destruct (finish_shaped _ _ _ _ _ Hxs
              (stages_shaped _ _ _ _ _ _ Hc Hxs Hrun0) Hfin0)
    as (Hx & Hm & Hs & _ & Hn).
  clear x0 s0 Hx0 Hrun0 Hfin0 Hxs.
  apply shaped2_wf in Hx, Hm, Hs, Hn.
  destruct Hx as (_ & Hbx & Hdx), Hm as (Hwm & Hbm & Hdm),
    Hs as (Hws & Hbs & Hds), Hn as (Hwn & Hbn & Hdn).
  rewrite Hbx in Hi. rewrite Hdx in Hj.
  pose proof (scale_tot_within _ _ _ _ _ Hff) as Hsw.
  destruct (feed_forward_inv _ _ _ _ _ Hff)
    as (len' & x & s & _ & _ & Hlog & _ & Hfin).
  pose proof (logistic_within st (batch3 mel) (Z.to_nat len') Hu) as Hnw.
  rewrite Hlog in Hnw. simpl in Hnw.
  destruct (finish_inv _ _ _ Hfin)
    as (_ & _ & _ & _ & _ & _ & _ & _ & _ & Hrand & Hout).
  rewrite <- Hrand in Hnw.
  assert (Hentry : entry (out_x r) i j
                   = entry (out_rand_input r) i j * entry (out_scale_tot r) i j
                     + entry (out_mean_tot r) i j).
  { rewrite Hout, Hrand.
    rewrite <- Hrand in *.
    rewrite zip2d_entry; try assumption; try lia.
    - rewrite zip2d_entry; try assumption; try lia. reflexivity.
    - apply t2_zip_wf; try assumption. lia.
    - simpl. lia.
    - unfold batch2, t2_zip, zip2d. simpl. rewrite zipWith_length.
      fold (batch2 (out_rand_input r)) (batch2 (out_scale_tot r)). lia.
    - simpl. lia. }
  split; [exact Hentry|].
  rewrite Hentry.
  replace (entry (out_rand_input r) i j * entry (out_scale_tot r) i j
           + entry (out_mean_tot r) i j - entry (out_mean_tot r) i j)
    with (entry (out_rand_input r) i j * entry (out_scale_tot r) i j) by ring.
  apply noise_hi_reach.
  - apply (Forall2d_entry (fun v => noise_lo <= v < noise_hi));
      try assumption; lia.
  - assert (Hb : exp (- 9 * INR (List.length (num_iaf_layers hp)))
                 <= entry (out_scale_tot r) i j <= exp 7)
      by (apply (Forall2d_entry
                   (fun v => exp (- 9 * INR (List.length (num_iaf_layers hp)))
                             <= v <= exp 7)); try assumption; lia).
    pose proof (exp_pos (- 9 * INR (List.length (num_iaf_layers hp)))).
    lra.
Qed.

(** ** Further properties of the entropy estimator *)

Lemma student_samples_entry (rl mean_tot scale_tot : tensor2) (S b s t : nat) :
  wf2 rl -> wf2 mean_tot -> wf2 scale_tot ->
  batch2 rl = (batch2 mean_tot * S)%nat ->
  batch2 scale_tot = batch2 mean_tot ->
  dim1 mean_tot = dim1 rl -> dim1 scale_tot = dim1 rl ->
  (b < batch2 mean_tot)%nat -> (s < S)%nat -> (t < dim1 rl)%nat ->
  entry (student_samples rl mean_tot scale_tot S) (b * S + s) t
  = entry rl (b * S + s) t * entry scale_tot b t + entry mean_tot b t.
Proof.
  intros Hrl Hm Hsc Hb1 Hb2 Hd1 Hd2 Hb Hs Ht.
  assert (Hi : (b * S + s < batch2 mean_tot * S)%nat) by nia.
  unfold student_samples.
  rewrite zip2d_entry; try assumption.
  - rewrite zip2d_entry; try assumption.
    + now rewrite !tf_repeat2_entry.
    + now apply tf_repeat2_wf.
    + lia.
    + unfold batch2, tf_repeat2. simpl. rewrite tf_repeat_length.
      fold (batch2 scale_tot). rewrite Hb2. exact Hi.
  - apply t2_zip_wf; [assumption|now apply tf_repeat2_wf|exact Hd2].
  - now apply tf_repeat2_wf.
  - unfold batch2, t2_zip, zip2d. simpl.
    rewrite zipWith_length, tf_repeat_length.
    fold (batch2 rl) (batch2 scale_tot). rewrite Hb1, Hb2, Nat.min_id.
    exact Hi.
  - unfold batch2, tf_repeat2. simpl. rewrite tf_repeat_length. exact Hi.
Qed.

Lemma tf_repeat2_shaped (q : tensor2) (S b t : nat) :
  shaped2 b t q -> shaped2 (b * S) t (tf_repeat2 q S).
Proof.
  intros (Hd & Hb & Hrows). unfold shaped2, matrix_shaped, tf_repeat2. simpl.
  split; [exact Hd|]. split.
  - now rewrite tf_repeat_length, Hb.
  - unfold tf_repeat. apply Forall_flat_map.
    eapply Forall_impl; [|exact Hrows].
    intros r Hr. apply Forall_forall. intros r' Hin.
    apply repeat_spec in Hin. now subst r'.
Qed.

(** X10. For noise of shape [[B*S, L]] and coefficients of shape [[B, L]]
    the Monte-Carlo samples of the estimator have the shape [[B*S, L]];
    when the noise is in its range and the scale is not negative, sample
    [s] of batch row [b] lies within [scale_tot * (log(1 - 1e-5) -
    log(1e-5))] of [mean_tot] at every time step. *)
Theorem student_samples_reach (rl mean_tot scale_tot : tensor2)
  (B L S b s t : nat) :
  shaped2 (B * S) L rl -> shaped2 B L mean_tot -> shaped2 B L scale_tot ->
  noise_range (rows rl) ->
  Forall (Forall (fun v => 0 <= v)) (rows scale_tot) ->
  (b < B)%nat -> (s < S)%nat -> (t < L)%nat ->
  shaped2 (B * S) L (student_samples rl mean_tot scale_tot S) /\
  Rabs (entry (student_samples rl mean_tot scale_tot S) (b * S + s) t
        - entry mean_tot b t)
  <= entry scale_tot b t * noise_hi.
Proof.
  intros Hrl Hm Hsc Hnoise Hpos Hb Hs Ht.
  split.
  - unfold student_samples.
    apply t2_zip_shaped; [apply t2_zip_shaped|];
      try assumption; now apply tf_repeat2_shaped.
  - destruct (shaped2_wf _ _ _ Hrl) as (Hw1 & Hb1 & Hd1).
    destruct (shaped2_wf _ _ _ Hm) as (Hw2 & Hb2 & Hd2).
    destruct (shaped2_wf _ _ _ Hsc) as (Hw3 & Hb3 & Hd3).
    rewrite student_samples_entry; try assumption; try lia.
    replace (entry rl (b * S + s) t * entry scale_tot b t + entry mean_tot b t
             - entry mean_tot b t)
      with (entry rl (b * S + s) t * entry scale_tot b t) by ring.
    assert (Hn : noise_lo <= entry rl (b * S + s) t < noise_hi).
    { apply (Forall2d_entry (fun v => noise_lo <= v < noise_hi));
        try assumption; [nia|lia]. }
    assert (Hsp : 0 <= entry scale_tot b t).
    { apply (Forall2d_entry (fun v => 0 <= v)); try assumption; lia. }
    assert (Hsym : noise_lo = - noise_hi)
      by (unfold noise_lo, noise_hi; lra).
    rewrite Hsym in Hn. apply Rabs_le. split; nra.
Qed.

Lemma sum_n_plus (n : nat) (f g : nat -> R) :
  sum_n n (fun i => f i + g i) = sum_n n f + sum_n n g.
Proof.
  induction n as [|n IH]; simpl; [ring|]. rewrite IH. ring.
Qed.

Lemma sum_n_scal (n : nat) (f : nat -> R) (c : R) :
  sum_n n (fun i => c * f i) = c * sum_n n f.
Proof.
  induction n as [|n IH]; simpl; [ring|]. rewrite IH. ring.
Qed.

Lemma sum_n_swap (n m : nat) (f : nat -> nat -> R) :
  sum_n n (fun i => sum_n m (fun j => f i j))
  = sum_n m (fun j => sum_n n (fun i => f i j)).
Proof.
  induction n as [|n IH]; simpl.
  - induction m as [|m IHm]; simpl; [reflexivity|]. rewrite <- IHm. ring.
  - rewrite IH. symmetry. apply sum_n_plus.
Qed.

Lemma sum_n_app (n m : nat) (f : nat -> R) :
  sum_n (n + m) f = sum_n n f + sum_n m (fun i => f (n + i)%nat).
Proof.
  induction m as [|m IH].
  - rewrite Nat.add_0_r. simpl. ring.
  - rewrite Nat.add_succ_r. simpl. rewrite IH. ring.
Qed.

Lemma sum_n_blocks (B S : nat) (f : nat -> R) :
  sum_n (B * S) f = sum_n B (fun b => sum_n S (fun s => f (b * S + s)%nat)).
Proof.
  induction B as [|B IH]; [reflexivity|].
  replace (Datatypes.S B * S)%nat with (B * S + S)%nat by lia.
  rewrite sum_n_app, IH. reflexivity.
Qed.

Lemma two_step_mean (t : tensor2) (B S : nat) :
  wf2 t -> batch2 t = (B * S)%nat ->
  reduce_mean2
    (rows (t2_map Ropp
             (reduce_mean_axis1 (T3 S (dim1 t) (chunks B S (rows t))))))
  = - reduce_mean2 (rows t).
Proof.
  intros Hwf Hb.
  set (m := reduce_mean_axis1 (T3 S (dim1 t) (chunks B S (rows t)))).
  pose proof (reduce_mean_axis1_wf t B S Hwf Hb) as Hwf1. fold m in Hwf1.
  assert (Hb1 : batch2 m = B).
  { unfold batch2, m, reduce_mean_axis1. simpl.
    rewrite length_map. apply chunks_length. }
  rewrite !reduce_mean2_index by (try apply t2_map_wf; assumption).
  replace (batch2 (t2_map Ropp m)) with B
    by (unfold batch2, t2_map, map2d; simpl; rewrite length_map;
        symmetry; exact Hb1).
  change (dim1 (t2_map Ropp m)) with (dim1 t).
  rewrite Hb. unfold mean_batch_time.
  set (L := dim1 t).
  assert (Hsum :
    sum_n B (fun b => sum_n L (entry (t2_map Ropp m) b))
    = - / INR S * sum_n (B * S) (fun i => sum_n L (entry t i))).
  { rewrite sum_n_blocks, <- sum_n_scal.
    apply sum_n_ext. intros b Hlt.
    rewrite sum_n_swap, <- sum_n_scal.
    apply sum_n_ext. intros j Hj.
    rewrite t2_map_entry; [| exact Hwf1 | now rewrite Hb1 | exact Hj].
    unfold m. rewrite reduce_mean_axis1_entry by assumption.
    unfold mean_n, Rdiv. ring. }
  rewrite Hsum.
  rewrite !mult_INR. unfold Rdiv. rewrite !Rinv_mult. ring.
Qed.

(** X11. With a teacher log-likelihood of the shape [[B*S, L]] of the
    samples (all three sizes positive), averaging over the [S] samples and
    then over batch and time is averaging over every entry: the estimator
    returns [H_Ps_Pt = - mean(log_te_probs)]. *)
Theorem cross_entropy_global_mean (hp : hparams) (st : rng) (ff : ff_dict)
  (S : nat) :
  let B := batch2 (ff_x ff) in
  let L := dim1 (ff_x ff) in
  let rl := fst (_logistic_0_1 st (B * S) L) in
  let x_xp := student_samples rl (ff_mean_tot ff) (ff_scale_tot ff) S in
  let log_te_probs := teacher_log_probs hp ff x_xp S in
  (0 < B)%nat -> (0 < S)%nat -> (0 < L)%nat ->
  wf2 log_te_probs -> batch2 log_te_probs = (B * S)%nat ->
  dim1 log_te_probs = L ->
  exists d st',
    kl_loss hp st ff S = Ok (d, st') /\
    dict_get "H_Ps_Pt" d = Some (- reduce_mean2 (rows log_te_probs)).
Proof.
  intros B L rl x_xp logp _ _ _ Hwf Hb Hd.
  unfold kl_loss. fold B L.
  subst rl x_xp logp.
  destruct (_logistic_0_1 st (B * S) L) as [rl st1]. simpl fst in *.
  set (logp := teacher_log_probs hp ff _ S) in *.
  unfold reshape3. rewrite Hb, Hd, Nat.eqb_refl. simpl bind.
  clearbody logp L. subst L.
  pose proof (two_step_mean logp B S Hwf Hb) as Hmean.
  simpl rows in Hmean.
  do 2 eexists. split; [reflexivity|].
  simpl dict_get. f_equal. exact Hmean.
Qed.

(** ** Further properties of the trim and of the spectral loss *)

Lemma trim_value (x : tensor2) (d : nat) :
  (d <= dim1 x)%nat ->
  _trim x (Z.of_nat d)
  = Ok (T2 (dim1 x - d)
          (map (fun r => firstn (dim1 x - d) (skipn (d / 2) r)) (rows x))).
Proof.
  intros Hd.
  assert (Hhalf : (Z.of_nat d / 2)%Z = Z.of_nat (d / 2))
    by (rewrite (Nat2Z.inj_div d 2); reflexivity).
  assert (Hsize : (Z.of_nat (dim1 x) - Z.of_nat d)%Z = Z.of_nat (dim1 x - d))
    by lia.
  assert (Hle : (d / 2 <= d)%nat) by (apply Nat.Div0.div_le_upper_bound; lia).
  unfold _trim, tf_slice_cols. rewrite Hhalf, Hsize.
  destruct (Z.ltb_spec (Z.of_nat (d / 2)) 0); [lia|].
  destruct (Z.eqb_spec (Z.of_nat (dim1 x - d)) (-1)); [lia|].
  destruct (Z.ltb_spec (Z.of_nat (dim1 x - d)) 0); [lia|].
  destruct (Z.ltb_spec (Z.of_nat (dim1 x))
              (Z.of_nat (d / 2) + Z.of_nat (dim1 x - d))); [lia|].
  simpl. rewrite !Nat2Z.id. reflexivity.
Qed.

Lemma window_of_window (l : list R) (j k m : nat) :
  (j + k <= m)%nat ->
  firstn k (skipn j (firstn m l)) = firstn k (skipn j l).
Proof.
  intros H. rewrite skipn_firstn_comm, firstn_firstn.
  f_equal. lia.
Qed.

Lemma half_sum (a b : nat) :
  Nat.even a = true \/ Nat.even b = true ->
  ((a + b) / 2 = a / 2 + b / 2)%nat.
Proof.
  intros [Ha|Hb].
  - apply Nat.even_spec in Ha. destruct Ha as [k Hk]. subst a.
    rewrite (Nat.mul_comm 2 k), Nat.div_add_l, Nat.div_mul by lia.
    reflexivity.
  - apply Nat.even_spec in Hb. destruct Hb as [k Hk]. subst b.
    rewrite (Nat.mul_comm 2 k), Nat.div_add, Nat.div_mul by lia.
    reflexivity.
Qed.

(** X12. Trimming by 0 returns a well-shaped waveform unchanged, and two
    trims in a row are one trim by the sum of their lengths whenever the
    lengths are not both odd. *)
Theorem trim_composes (x : tensor2) (a b : nat) :
  wf2 x -> (a + b <= dim1 x)%nat ->
  Nat.even a = true \/ Nat.even b = true ->
  _trim x 0 = Ok x /\
  (y <- _trim x (Z.of_nat a) ;; _trim y (Z.of_nat b))
  = _trim x (Z.of_nat (a + b)).
Proof.
  intros Hwf Hab Hev. split.
  - change 0%Z with (Z.of_nat 0). rewrite trim_value by lia.
    destruct x as [n rs]. unfold wf2 in Hwf. simpl in *.
    rewrite Nat.sub_0_r. do 2 f_equal.
    rewrite <- (map_id rs) at 2. apply map_ext_in. intros r Hr.
    rewrite Forall_forall in Hwf. specialize (Hwf r Hr).
    simpl. apply firstn_all2. lia.
  - assert (Hle : (b / 2 <= b)%nat)
      by (apply Nat.Div0.div_le_upper_bound; lia).
    rewrite (trim_value x a) by lia. cbn [bind].
    rewrite trim_value by (cbn [dim1]; lia).
    rewrite trim_value by lia. cbn [dim1 rows].
    f_equal. f_equal; [lia|].
    rewrite map_map. apply map_ext. intros r.
    rewrite window_of_window by lia.
    rewrite skipn_skipn, (half_sum a b Hev).
    f_equal; [lia|]. f_equal. lia.
Qed.

(** X13. A negative trim length, or one that exceeds the waveform by more
    than one sample, makes the slice fail; a trim length of exactly one
    more than the waveform does not fail: the size [-1] it gives to the
    slice means every remaining column, so the right part of the waveform
    is returned. *)
Theorem trim_out_of_range (x : tensor2) (trim_len : Z) :
  ((trim_len < 0)%Z -> exists e, _trim x trim_len = Err e) /\
  ((Z.of_nat (dim1 x) + 1 < trim_len)%Z -> exists e, _trim x trim_len = Err e) /\
  (trim_len = (Z.of_nat (dim1 x) + 1)%Z ->
   _trim x trim_len
   = Ok (T2 (dim1 x - (dim1 x + 1) / 2)
           (map (skipn ((dim1 x + 1) / 2)) (rows x)))).
Proof.
  split; [|split].
  - intros Hneg. unfold _trim, tf_slice_cols.
    assert (trim_len / 2 < 0)%Z by (apply Z.div_lt_upper_bound; lia).
    destruct (Z.ltb_spec (trim_len / 2) 0); [eauto|lia].
  - intros Hbig. unfold _trim, tf_slice_cols.
    assert (0 <= trim_len / 2)%Z by (apply Z.div_pos; lia).
    destruct (Z.ltb_spec (trim_len / 2) 0); [lia|].
    destruct (Z.eqb_spec (Z.of_nat (dim1 x) - trim_len) (-1)); [lia|].
    destruct (Z.ltb_spec (Z.of_nat (dim1 x) - trim_len) 0); [|lia].
    simpl. eauto.
  - intros Heq. subst trim_len. unfold _trim, tf_slice_cols.
    assert (Hhalf : ((Z.of_nat (dim1 x) + 1) / 2)%Z
                    = Z.of_nat ((dim1 x + 1) / 2)).
    { rewrite (Nat2Z.inj_div (dim1 x + 1) 2), Nat2Z.inj_add. reflexivity. }
    assert (Hle : ((dim1 x + 1) / 2 <= dim1 x)%nat).
    { destruct (dim1 x) as [|n]; [reflexivity|].
      apply Nat.Div0.div_le_upper_bound. lia. }
    rewrite Hhalf.
    destruct (Z.ltb_spec (Z.of_nat ((dim1 x + 1) / 2)) 0); [lia|].
    destruct (Z.eqb_spec (Z.of_nat (dim1 x) - (Z.of_nat (dim1 x) + 1)) (-1));
      [|lia].
    destruct (Z.ltb_spec (Z.of_nat (dim1 x)) (Z.of_nat ((dim1 x + 1) / 2)));
      [lia|].
    rewrite Nat2Z.id. reflexivity.
Qed.

Lemma crop_longer_total (pred_wav orig_wav : tensor2) :
  exists p o, crop_longer pred_wav orig_wav = Ok (p, o).
Proof.
  unfold crop_longer.
  destruct (Z.ltb_spec (Z.of_nat (dim1 orig_wav)) (Z.of_nat (dim1 pred_wav))).
  - replace (Z.of_nat (dim1 pred_wav) - Z.of_nat (dim1 orig_wav))%Z
      with (Z.of_nat (dim1 pred_wav - dim1 orig_wav)) by lia.
    rewrite trim_value by lia. simpl. eauto.
  - destruct (Z.ltb_spec (Z.of_nat (dim1 pred_wav))
                (Z.of_nat (dim1 orig_wav))); [|eauto].
    replace (Z.of_nat (dim1 orig_wav) - Z.of_nat (dim1 pred_wav))%Z
      with (Z.of_nat (dim1 orig_wav - dim1 pred_wav)) by lia.
    rewrite trim_value by lia. simpl. eauto.
Qed.

Lemma sum_list_nonneg (l : list R) :
  Forall (fun v => 0 <= v) l -> 0 <= sum_list l.
Proof.
  unfold sum_list. induction 1 as [|v l Hv _ IH]; simpl in *; lra.
Qed.

Lemma Rinv_nonneg (y : R) : 0 <= y -> 0 <= / y.
Proof.
  intros [Hpos|Hzero].
  - left. now apply Rinv_0_lt_compat.
  - subst y. rewrite Rinv_0. lra.
Qed.

Lemma all3_true (P : R -> Prop) (c : cube) : (forall v, P v) -> all3 P c.
Proof.
  intros H. unfold all3.
  apply Forall_forall. intros m _.
  apply Forall_forall. intros r _.
  apply Forall_forall. intros v _. apply H.
Qed.

Lemma spectral_distance_nonneg (p o : tensor2) (fl fs fft : nat) :
  0 <= spectral_distance p o fl fs fft.
Proof.
  unfold spectral_distance, reduce_mean3, reduce_mean_list.
  match goal with
  | |- 0 <= 1 / 2 * (sum_list ?l / INR ?n) =>
      assert (Hs : 0 <= sum_list l); [|pose proof (Rinv_nonneg _ (pos_INR n))]
  end.
  - apply sum_list_nonneg. apply Forall_concat. apply Forall_concat.
    apply all3_zip with (P := fun _ => True) (Q := fun _ => True).
    + intros u v _ _. cbv beta. unfold squared_difference.
      change (0 <= Rsqr (u - v)). apply Rle_0_sqr.
    + now apply all3_true.
    + now apply all3_true.
  - unfold Rdiv. nra.
Qed.

(** X14. [power_loss] returns for every pair of waveforms (the trim of
    the longer one never fails), its dictionary has the single entry
    [power_loss], and the value is never negative. *)
Theorem power_loss_total_nonneg (wav_x wav_wav : tensor2)
  (frame_length frame_shift fft_length : nat) :
  exists v,
    power_loss wav_x wav_wav frame_length frame_shift fft_length
    = Ok [("power_loss"%string, v)] /\
    0 <= v.
Proof.
  destruct (crop_longer_total wav_x wav_wav) as (p & o & Hcrop).
  exists (spectral_distance p o frame_length frame_shift fft_length).
  split.
  - unfold power_loss. rewrite Hcrop. reflexivity.
  - apply spectral_distance_nonneg.
Qed.

(** X15. [calculate_loss] fails exactly when the entropy estimator
    fails, with the same error; when the estimator returns, so does
    [calculate_loss], with the generator state of the estimator, the
    [kl_loss] entry unchanged and a total that is never below it. *)
Theorem calculate_loss_returns (hp : hparams) (st : rng) (ff : ff_dict) :
  (forall e,
     kl_loss hp st ff (num_samples hp) = Err e ->
     calculate_loss hp st ff = Err e) /\
  (forall kd st',
     kl_loss hp st ff (num_samples hp) = Ok (kd, st') ->
     exists d kl loss,
       calculate_loss hp st ff = Ok (d, st') /\
       dict_get "kl_loss" kd = Some kl /\
       dict_get "kl_loss" d = Some kl /\
       dict_get "loss" d = Some loss /\
       kl <= loss).
Proof.
  split.
  - intros e He. unfold calculate_loss. now rewrite He.
  - intros kd st' Hkl.
    destruct (kl_loss_keys _ _ _ _ _ _ Hkl) as (kl & h & hpt & Hkd).
    subst kd. unfold calculate_loss. rewrite Hkl. simpl bind.
    simpl dict_get.
    destruct (Rlt_dec 0 (power_loss_factor hp)) as [Hpos|Hneg].
    + destruct (crop_longer_total (ff_x ff) (ff_wav ff)) as (p & o & Hcrop).
      unfold power_loss. rewrite Hcrop. simpl.
      pose proof (spectral_distance_nonneg p o 800 200 1024) as Hnn.
      do 3 eexists. split; [reflexivity|].
      split; [reflexivity|]. split; [reflexivity|]. split; [reflexivity|].
      nra.
    + do 3 eexists. split; [reflexivity|].
      split; [reflexivity|]. split; [reflexivity|]. split; [reflexivity|].
      lra.
Qed.

(** ** The identity stage and the quantization path *)

Lemma zip_vector_left (f : R -> R -> R) (Q : R -> Prop) (u v : list R) :
  (forall a b, Q b -> f a b = a) ->
  List.length u = List.length v -> Forall Q v -> zipWith f u v = u.
Proof.
  intros Hf. revert v.
  induction u as [|a u IH]; intros [|b v] Hlen Hv; simpl in *;
    try reflexivity; try discriminate.
  inversion Hv; subst. rewrite Hf by assumption.
  f_equal. apply IH; [lia|assumption].
Qed.

Lemma zip_matrix_left (f : R -> R -> R) (Q : R -> Prop) (c : nat)
  (m m' : matrix) :
  (forall a b, Q b -> f a b = a) ->
  List.length m = List.length m' ->
  Forall (fun v => List.length v = c) m ->
  Forall (fun v => List.length v = c) m' ->
  Forall (Forall Q) m' -> zipWith (zipWith f) m m' = m.
Proof.
  intros Hf. revert m'.
  induction m as [|u m IH]; intros [|v m'] Hlen Hm Hm' HQ; simpl in *;
    try reflexivity; try discriminate.
  inversion Hm; inversion Hm'; inversion HQ; subst.
  rewrite (zip_vector_left f Q) by (try assumption; congruence).
  f_equal. apply IH; [lia|assumption..].
Qed.

Lemma zip_cube_left (f : R -> R -> R) (Q : R -> Prop) (b t c : nat)
  (x y : cube) :
  (forall u v, Q v -> f u v = u) ->
  cube_shaped b t c x -> cube_shaped b t c y -> all3 Q y ->
  zip3d f x y = x.
Proof.
  intros Hf [Hbx Hx] [Hby Hy] HQ. unfold zip3d, zip2d, all3 in *.
  assert (Hlen : List.length x = List.length y) by congruence.
  clear Hbx Hby. revert y Hlen Hy HQ.
  induction x as [|m x IH]; intros [|m' y] Hlen Hy HQ; simpl in *;
    try reflexivity; try discriminate.
  inversion Hx as [|? ? [Hm Hv] Hx']; inversion Hy as [|? ? [Hm' Hv'] Hy'];
    inversion HQ; subst.
  rewrite (zip_matrix_left f Q c) by (try assumption; congruence).
  f_equal. apply IH; [assumption|lia|assumption..].
Qed.

(** X16. Under the shape contract, a stage that returns [mean = 0] and
    [log_scale = 0] everywhere has [scale = 1] everywhere and leaves its
    input sample unchanged. *)
Theorem identity_stage (hp : hparams) (mel x : tensor3) (iaf_idx : nat)
  (d : iaf_dict) (b t : nat) :
  shape_contract -> shaped3 b t 1 x ->
  _create_iaf hp mel x iaf_idx = Ok d ->
  all3 (fun v => v = 0) (cells (iaf_mean d)) ->
  all3 (fun v => v = 0) (cells (iaf_log_scale d)) ->
  all3 (fun v => v = 1) (cells (iaf_scale d)) /\ iaf_x d = x.
Proof.
  intros Hc Hx Hd Hmean Hls.
  destruct (create_iaf_affine _ _ _ _ _ Hd) as (Haff & _).
  destruct (create_iaf_exp _ _ _ _ _ Hd) as (Hexp & _).
  destruct (create_iaf_shaped Hc _ _ _ _ _ _ _ Hx Hd)
    as (_ & (_ & _ & Hms) & (_ & _ & Hss) & _).
  assert (Hone : all3 (fun v => v = 1) (cells (iaf_scale d))).
  { rewrite Hexp. unfold all3, map3d, map2d in *.
    rewrite Forall_map. eapply Forall_impl; [|exact Hls]. intros m Hm.
    rewrite Forall_map. eapply Forall_impl; [|exact Hm]. intros r Hr.
    rewrite Forall_map. eapply Forall_impl; [|exact Hr]. intros v Hv.
    simpl in Hv. subst v. apply exp_0. }
  split; [exact Hone|].
  rewrite Haff. destruct Hx as (Hs & Hch & Hxs).
  unfold t3_zip. simpl.
  rewrite (zip_cube_left Rmult (fun v => v = 1) b t 1 (cells x))
    by (try assumption; intros u v Hv; subst v; ring).
  rewrite (zip_cube_left Rplus (fun v => v = 0) b t 1 (cells x))
    by (try assumption; intros u v Hv; subst v; ring).
  now destruct x.
Qed.

Lemma clip_idempotent (v lo hi : R) :
  clip_by_value (clip_by_value v lo hi) lo hi = clip_by_value v lo hi.
Proof.
  destruct (Rle_dec lo hi) as [Hle|Hgt].
  - pose proof (clip_bounds v lo hi Hle) as [H1 H2].
    unfold clip_by_value at 1.
    rewrite Rmax_left by exact H1. now apply Rmin_left.
  - assert (Hsat : forall w, clip_by_value w lo hi = hi).
    { intros w. unfold clip_by_value. apply Rmin_right.
      pose proof (Rmax_r w lo). lra. }
    now rewrite !Hsat.
Qed.

(** X17. [_clip_quant_scale] saturates: it gives the same result for an
    input and for that input clipped to [[-1, 1 - 2 / quant_chann]], hence
    the same result for any two inputs that agree after the clip. *)
Theorem clip_quant_scale_saturates
  (cast_quantize : tensor2 -> Z -> tensor2)
  (inv_mu_law : tensor2 -> tensor2)
  (inv_cast_quantize : tensor2 -> Z -> tensor2)
  (x y : tensor2) (quant_chann : Z) (use_mu_law : bool) :
  let clip := t2_map
                (fun v => clip_by_value v (- 1) (1 - 2 / IZR quant_chann)) in
  _clip_quant_scale cast_quantize inv_mu_law inv_cast_quantize (clip x)
    quant_chann use_mu_law
  = _clip_quant_scale cast_quantize inv_mu_law inv_cast_quantize x
      quant_chann use_mu_law /\
  (clip x = clip y ->
   _clip_quant_scale cast_quantize inv_mu_law inv_cast_quantize x
     quant_chann use_mu_law
   = _clip_quant_scale cast_quantize inv_mu_law inv_cast_quantize y
       quant_chann use_mu_law).
Proof.
  intros clip.
  assert (Hidem : clip (clip x) = clip x).
  { unfold clip, t2_map, map2d. simpl. f_equal.
    rewrite map_map. apply map_ext. intros r.
    rewrite map_map. apply map_ext. intros v. apply clip_idempotent. }
  unfold _clip_quant_scale. fold clip. split.
  - now rewrite Hidem.
  - intros Heq. now rewrite Heq.
Qed.

End Stages.

(** ** Concrete runs *)

Lemma const_uniform (u raw_mean raw_scale : R) :
  0 <= u < 1 -> @uniform_in_range (const_externals u raw_mean raw_scale).
Proof.
  intros [Hu0 Hu1] st n len lo hi Hlt. simpl.
  apply Forall_forall. intros r Hr. apply repeat_spec in Hr. subst r.
  apply Forall_forall. intros v Hv. apply repeat_spec in Hv. subst v.
  split; nra.
Qed.

Lemma const_channels (u raw_mean raw_scale : R) :
  @conv1d_channel_contract (const_externals u raw_mean raw_scale).
Proof.
  intros x nf fl dil name ki wn. simpl. unfold channels_ok, const_cube.
  apply Forall_forall. intros m Hm. apply repeat_spec in Hm. subst m.
  apply Forall_forall. intros v Hv. apply repeat_spec in Hv. subst v.
  apply repeat_length.
Qed.

Lemma clip_low : clip_by_value (- 9) (- 9) 7 = - 9.
Proof.
  unfold clip_by_value, Rmin, Rmax.
  destruct (Rle_dec (- 9) (- 9)); destruct (Rle_dec _ 7); lra.
Qed.

Lemma clip_high : clip_by_value 7 (- 9) 7 = 7.
Proof.
  unfold clip_by_value, Rmin, Rmax.
  destruct (Rle_dec 7 (- 9)); destruct (Rle_dec _ 7); lra.
Qed.

Lemma exp_7_gt_1 : 1 < exp 7.
Proof. rewrite <- exp_0. apply exp_increasing. lra. Qed.

Lemma exp_m9_lt_1 : exp (- 9) < 1.
Proof. rewrite <- exp_0. apply exp_increasing. lra. Qed.

Lemma one_stage_run :
  @run_stages zero_externals (demo_hp [1%nat] 0) demo_mel (T2 1 [[1]])
  = Ok one_stage_state.
Proof. reflexivity. Qed.

Lemma one_stage_forward :
  @feed_forward zero_externals (demo_hp [1%nat] 0) tt demo_mel
  = Ok (one_stage_result, tt).
Proof. reflexivity. Qed.

Lemma low_forward :
  @feed_forward low_externals (demo_hp [1%nat; 1%nat] 0) tt demo_mel
  = Ok (low_result, tt).
Proof. reflexivity. Qed.

Lemma high_forward :
  @feed_forward high_externals (demo_hp [1%nat; 1%nat] 0) tt demo_mel
  = Ok (high_result, tt).
Proof. reflexivity. Qed.

Lemma high_run :
  @run_stages high_externals (demo_hp [1%nat; 1%nat] 0) demo_mel
    (out_rand_input high_result)
  = Ok high_state.
Proof. reflexivity. Qed.

Lemma demo_kl :
  @kl_loss zero_externals (demo_hp [1%nat] 1) tt demo_ff 1
  = Ok (demo_kl_dict, tt).
Proof. reflexivity. Qed.

Lemma high_noise_positive :
  0 < ln (1 / 100000 + (1 - 1 / 100000 - 1 / 100000) * (3 / 4))
      - ln (1 - (1 / 100000 + (1 - 1 / 100000 - 1 / 100000) * (3 / 4))).
Proof.
  apply Rlt_0_minus. apply ln_increasing; lra.
Qed.

(** The lower bound of the noise is reached when the uniform draw is its
    minimal value. *)
Lemma noise_lower_end_attained :
  rows (fst (@_logistic_0_1 (const_externals 0 0 0) tt 1 1)) = [[noise_lo]].
Proof.
  run.
  replace (1 / 100000 + (1 - 1 / 100000 - 1 / 100000) * 0)
    with (1 / 100000) by lra.
  reflexivity.
Qed.

(** C2, counterexample. Two stages whose scale projection outputs [-9]: the
    composed [scale_tot] is [exp(-9) * exp(-9)], below [exp(-9)]. *)
Lemma scale_tot_below_lower_bound :
  exists r,
    @feed_forward low_externals (demo_hp [1%nat; 1%nat] 0) tt demo_mel
    = Ok (r, tt) /\
    ~ within (exp (- 9)) (exp 7) (rows (out_scale_tot r)).
Proof.
  exists low_result. split; [exact low_forward|].
  unfold low_result. simpl rows. intros H.
  inversion H as [|r l Hr _]; subst.
  inversion Hr as [|v l' [Hlo _] _]; subst.
  rewrite clip_low in Hlo.
  pose proof (Rmin_l (1 * exp (- 9) * exp (- 9)) (exp 7)) as Hmin.
  pose proof (exp_pos (- 9)) as Hpos.
  pose proof exp_m9_lt_1 as Hlt.
  nra.
Qed.

(** C1, counterexample. Two stages whose scale projection outputs [7]: the
    sample threaded through the stages is [noise * exp(7) * exp(7)], while
    [feed_forward] returns [noise * exp(7)]. *)
Lemma clipped_sample_differs :
  exists r s,
    @feed_forward high_externals (demo_hp [1%nat; 1%nat] 0) tt demo_mel
    = Ok (r, tt) /\
    @run_stages high_externals (demo_hp [1%nat; 1%nat] 0) demo_mel
      (out_rand_input r) = Ok s /\
    squeeze (Tn (fs_x s)) <> Ok (out_x r).
Proof.
  exists high_result, high_state.
  split; [exact high_forward|]. split; [exact high_run|].
  unfold high_state, high_result. simpl. intros H.
  injection H as H. revert H. rewrite !clip_high.
  rewrite Rmin_right by (pose proof exp_7_gt_1; nra).
  pose proof high_noise_positive as Hn.
  pose proof exp_7_gt_1 as He.
  set (n := ln _ - ln _) in *. intros H.
  assert (Hprod : 0 < n * exp 7 * (exp 7 - 1))
    by (apply Rmult_lt_0_compat; [apply Rmult_lt_0_compat|]; lra).
  nra.
Qed.

(** ** Instances of the theorems at the concrete inputs *)

(** One zero-output stage on the noise [[[1]]]: the threaded sample is the
    one [feed_forward] returns. *)
Lemma affine_composition_witness :
  num_iaf_layers (demo_hp [1%nat] 0) <> [] /\
  @run_stages zero_externals (demo_hp [1%nat] 0) demo_mel (T2 1 [[1]])
  = Ok one_stage_state /\
  exists M S r,
    fs_mean_tot one_stage_state = Tn M /\
    fs_scale_tot one_stage_state = Tn S /\
    fs_x one_stage_state
    = t3_zip Rplus (t3_zip Rmult (expand_dims (T2 1 [[1]])) S) M /\
    finish (T2 1 [[1]]) one_stage_state = Ok r /\
    squeeze (Tn (fs_x one_stage_state)) = Ok (out_x r).
Proof.
  assert (Hne : num_iaf_layers (demo_hp [1%nat] 0) <> []) by discriminate.
  split; [exact Hne|]. split; [exact one_stage_run|].
  destruct (@affine_composition zero_externals _ _ _ _ Hne one_stage_run)
    as (M & S & r & HM & HS & Hx & Hfin & _ & _ & _ & Hsq & Hone).
  exists M, S, r. repeat split; try assumption.
  apply Hsq; [apply const_channels|]. apply Hone. reflexivity.
Defined.

(** One zero-output stage: [scale_tot] is [exp 0], within the clip. *)
Lemma scale_clipping_witness :
  @feed_forward zero_externals (demo_hp [1%nat] 0) tt demo_mel
  = Ok (one_stage_result, tt) /\
  within (exp (- 9)) (exp 7) (rows (out_scale_tot one_stage_result)).
Proof.
  split; [exact one_stage_forward|].
  destruct (@scale_clipping zero_externals _ _ _ _ _ one_stage_forward)
    as (_ & _ & _ & Hone).
  apply Hone. reflexivity.
Defined.

(** One batch row, two Monte-Carlo samples. *)
Lemma kl_loss_values_witness :
  let hp := demo_hp [1%nat] 1 in
  let rl := fst (@_logistic_0_1 zero_externals tt 2 1) in
  let x_xp := student_samples rl (T2 1 [[5]]) (T2 1 [[7]]) 2 in
  let log_te_probs := @teacher_log_probs zero_externals hp demo_ff x_xp 2 in
  wf2 log_te_probs /\ batch2 log_te_probs = 2%nat /\
  dim1 log_te_probs = 1%nat /\ wf2 (T2 1 [[3]]) /\
  exists H_Ps H_Ps_Pt,
    @kl_loss zero_externals hp tt demo_ff 2
    = Ok ([("kl_loss"%string, H_Ps_Pt - H_Ps); ("H_Ps"%string, H_Ps);
           ("H_Ps_Pt"%string, H_Ps_Pt)], tt) /\
    H_Ps = mean_batch_time 1 1 (entry (T2 1 [[3]])) + 2 /\
    H_Ps_Pt
    = mean_batch_time 1 1
        (fun b t => - mean_n 2 (fun s => entry log_te_probs (b * 2 + s) t)).
Proof.
  intros hp rl x_xp log_te_probs.
  assert (H1 : wf2 log_te_probs) by (repeat constructor).
  assert (H2 : batch2 log_te_probs = 2%nat) by reflexivity.
  assert (H3 : dim1 log_te_probs = 1%nat) by reflexivity.
  assert (H4 : wf2 (T2 1 [[3]])) by (repeat constructor).
  repeat split; try assumption.
  do 2 eexists. split; [|split; reflexivity].
  exact (@kl_loss_values zero_externals hp tt demo_ff 2 H1 H2 H3 H4).
Defined.

(** Three frames of shift 15 under a maximal dilation of 4: 44 samples. *)
Lemma noise_length_aligned_witness :
  (1 <= num_stages strided_hp)%nat /\
  (- 2 ^ 63 <= strides_product (deconv_config strided_hp) < 2 ^ 63)%Z /\
  noise_length strided_hp 3 = Ok 44%Z /\
  (4 | 44)%Z /\ (44 <= 3 * 15)%Z.
Proof.
  assert (H1 : (1 <= num_stages strided_hp)%nat) by (simpl; lia).
  assert (H2 : (- 2 ^ 63 <= strides_product (deconv_config strided_hp)
                < 2 ^ 63)%Z)
    by (cbv; split; [intros H; discriminate H|reflexivity]).
  split; [exact H1|]. split; [exact H2|].
  destruct (@noise_length_aligned zero_externals strided_hp tt strided_mel
              H1 H2) as (Hlen & Hdiv & Hle & _).
  exact (conj Hlen (conj Hdiv Hle)).
Defined.

(** The second sample of the only batch row: [3 * 7 + 5]. *)
Lemma samples_reuse_coefficients_witness :
  wf2 noise_pair /\ wf2 mean_row /\ wf2 scale_row /\
  batch2 noise_pair = (batch2 mean_row * 2)%nat /\
  batch2 scale_row = batch2 mean_row /\
  dim1 mean_row = dim1 noise_pair /\ dim1 scale_row = dim1 noise_pair /\
  (0 < batch2 mean_row)%nat /\ (1 < 2)%nat /\ (0 < dim1 noise_pair)%nat /\
  entry (student_samples noise_pair mean_row scale_row 2) 1 0 = 3 * 7 + 5.
Proof.
  assert (H1 : wf2 noise_pair) by (repeat constructor).
  assert (H2 : wf2 mean_row) by (repeat constructor).
  assert (H3 : wf2 scale_row) by (repeat constructor).
  assert (H4 : (0 < batch2 mean_row)%nat)
    by (unfold batch2, mean_row; simpl; lia).
  assert (H5 : (1 < 2)%nat) by lia.
  assert (H6 : (0 < dim1 noise_pair)%nat)
    by (unfold noise_pair; simpl; lia).
  refine (conj H1 (conj H2 (conj H3 (conj eq_refl (conj eq_refl
            (conj eq_refl (conj eq_refl (conj H4 (conj H5 (conj H6 _)))))))))).
  exact (proj1 (@samples_reuse_coefficients zero_externals noise_pair mean_row
                  scale_row 2 0 1 0 H1 H2 H3 eq_refl eq_refl eq_refl eq_refl
                  H4 H5 H6)).
Defined.

Lemma wave_wf (n : nat) : wf2 (T2 n [repeat 0 n]).
Proof. constructor; [apply repeat_length|constructor]. Qed.

(** Reference of 1003 samples against 1000 predicted ones: one sample is
    removed on the left and two on the right. *)
Lemma crop_longer_centered_witness :
  wf2 wave_1000 /\ wf2 wave_1003 /\ dim1 wave_1000 <> dim1 wave_1003 /\
  exists pred' orig',
    crop_longer wave_1000 wave_1003 = Ok (pred', orig') /\
    dim1 pred' = 1000%nat /\ dim1 orig' = 1000%nat /\
    pred' = wave_1000 /\
    Forall2
      (fun r r' => exists l t, r = l ++ r' ++ t /\
                               List.length l = 1%nat /\ List.length t = 2%nat)
      (rows wave_1003) (rows orig').
Proof.
  assert (Hne : dim1 wave_1000 <> dim1 wave_1003) by (simpl; lia).
  assert (Hlt : (dim1 wave_1000 < dim1 wave_1003)%nat) by (simpl; lia).
  split; [apply wave_wf|]. split; [apply wave_wf|]. split; [exact Hne|].
  destruct (crop_longer_centered wave_1000 wave_1003 (wave_wf 1000)
              (wave_wf 1003) Hne)
    as (p & o & Hcrop & Hp & Ho & _ & _ & _ & Hlonger).
  destruct (Hlonger Hlt) as [Hsame Htrim].
  exists p, o. repeat split; try assumption.
Defined.

(** A power-loss factor of 1: the total adds the spectral loss. *)
Lemma calculate_loss_total_witness :
  @kl_loss zero_externals (demo_hp [1%nat] 1) tt demo_ff
    (num_samples (demo_hp [1%nat] 1)) = Ok (demo_kl_dict, tt) /\
  exists kl d pl,
    dict_get "kl_loss" demo_kl_dict = Some kl /\
    @calculate_loss zero_externals (demo_hp [1%nat] 1) tt demo_ff
    = Ok (d, tt) /\
    dict_get "loss" d = Some (kl + 1 * pl) /\
    dict_get "power_loss" d = Some pl.
Proof.
  split; [exact demo_kl|].
  destruct (@calculate_loss_total zero_externals _ _ _ _ _ demo_kl)
    as (kl & Hkl & _ & Hpos).
  destruct (Hpos ltac:(simpl; lra) _ eq_refl)
    as (d & pl & Hd & _ & Hloss & Hpl & _).
  exists kl, d, pl. repeat split; assumption.
Defined.

(** A two-channel stage with one layer is built; a three-channel one
    fails. *)
Lemma gated_unit_parity_witness :
  nth_error (num_iaf_layers (demo_hp [1%nat] 0)) 0 = Some 1%nat /\
  (0 < num_stages (demo_hp [1%nat] 0))%nat /\
  (exists d, @_create_iaf zero_externals (demo_hp [1%nat] 0) demo_mel
               (expand_dims (T2 1 [[1]])) 0 = Ok d).
Proof.
  assert (H1 : nth_error (num_iaf_layers (demo_hp [1%nat] 0)) 0 = Some 1%nat)
    by reflexivity.
  assert (H2 : (0 < num_stages (demo_hp [1%nat] 0))%nat) by (simpl; lia).
  split; [exact H1|]. split; [exact H2|].
  destruct (@gated_unit_parity zero_externals (demo_hp [1%nat] 0) demo_mel
              (expand_dims (T2 1 [[1]])) 0 1 H1 H2)
    as (_ & _ & Hok & _).
  apply Hok. right. reflexivity.
Defined.

(** Uniform draws at the middle of their range. *)
Lemma logistic_noise_bounded_witness :
  @uniform_in_range zero_externals /\
  noise_range (rows (fst (@_logistic_0_1 zero_externals tt 1 1))).
Proof.
  assert (Hu : @uniform_in_range zero_externals)
    by (apply const_uniform; lra).
  split; [exact Hu|].
  exact (proj1 (@logistic_noise_bounded zero_externals tt 1 1 Hu)).
Defined.

(** The same waveform twice, and waveforms of 1000 and 1003 samples in
    both orders. *)
Lemma power_loss_zero_symmetric_witness :
  @power_loss zero_externals wave_1000 wave_1000 800 200 1024
  = Ok [("power_loss"%string, 0)] /\
  @power_loss zero_externals wave_1000 wave_1003 800 200 1024
  = @power_loss zero_externals wave_1003 wave_1000 800 200 1024.
Proof.
  destruct (@power_loss_zero_symmetric zero_externals wave_1000 wave_1000
              800 200 1024) as [Hzero _].
  split.
  - apply (Hzero wave_1000 wave_1000); reflexivity.
  - exact (proj2 (@power_loss_zero_symmetric zero_externals wave_1000
                    wave_1003 800 200 1024)).
Defined.

(** ** Instances of the further properties *)

Lemma const_shape (u raw_mean raw_scale : R) :
  @shape_contract (const_externals u raw_mean raw_scale).
Proof.
  unfold shape_contract. simpl. split; [|split; [|split]].
  - intros st n len lo hi. unfold matrix_shaped. split.
    + apply repeat_length.
    + apply Forall_forall. intros r Hr. apply repeat_spec in Hr. subst r.
      apply repeat_length.
  - intros x nf fl dil name ki wn b t c (Hs & _ & Hb & _).
    unfold cube_shaped, const_cube, batch3. rewrite Hb, Hs. split.
    + apply repeat_length.
    + apply Forall_forall. intros m Hm. apply repeat_spec in Hm. subst m.
      split; [apply repeat_length|].
      apply Forall_forall. intros v Hv. apply repeat_spec in Hv. subst v.
      apply repeat_length.
  - intros x b t c (_ & _ & Hx). exact Hx.
  - intros x enc b t c (_ & _ & Hx). exact Hx.
Qed.

Lemma clip_zero : clip_by_value 0 (- 9) 7 = 0.
Proof.
  unfold clip_by_value. rewrite Rmax_left by lra. apply Rmin_left. lra.
Qed.

Lemma one_stage_create :
  @_create_iaf zero_externals (demo_hp [1%nat] 0) demo_mel
    (expand_dims (T2 1 [[1]])) 0 = Ok one_stage_dict.
Proof. reflexivity. Qed.

Lemma noise_hi_positive : 0 < noise_hi.
Proof.
  unfold noise_hi. apply Rlt_0_minus. apply ln_increasing; lra.
Qed.

(** The scale of one zero-output stage is the exponential of its
    log-scale. *)
Lemma stage_scale_exp_log_scale_witness :
  @_create_iaf zero_externals (demo_hp [1%nat] 0) demo_mel
    (expand_dims (T2 1 [[1]])) 0 = Ok one_stage_dict /\
  iaf_scale one_stage_dict = t3_map exp (iaf_log_scale one_stage_dict).
Proof.
  split; [exact one_stage_create|].
  exact (proj1 (@stage_scale_exp_log_scale zero_externals _ _ _ _ _
                  one_stage_create)).
Defined.

(** Layer 4 of a three-stage cycle has dilation [2 ** 1]. *)
Lemma layer_dilation_divides_length_witness :
  (1 <= num_stages strided_hp)%nat /\
  exists dilation len,
    layer_dilation 4 (num_stages strided_hp) = Ok dilation /\
    noise_length strided_hp 3 = Ok len /\
    (1 <= dilation)%nat /\
    (Z.of_nat dilation | 2 ^ (Z.of_nat (num_stages strided_hp) - 1))%Z /\
    (Z.of_nat dilation | len)%Z.
Proof.
  assert (H1 : (1 <= num_stages strided_hp)%nat) by (simpl; lia).
  split; [exact H1|].
  exact (layer_dilation_divides_length strided_hp 3 4 H1).
Defined.


(** The sampler on uniform draws at the middle of their range. *)
Lemma logistic_inverse_cdf_witness :
  @uniform_in_range zero_externals /\
  map2d sigmoid (rows (fst (@_logistic_0_1 zero_externals tt 1 1)))
  = fst (@random_uniform zero_externals tt 1 1 (1 / 100000)
           (1 - 1 / 100000)).
Proof.
  assert (Hu : @uniform_in_range zero_externals)
    by (apply const_uniform; lra).
  split; [exact Hu|].
  exact (@logistic_inverse_cdf zero_externals tt 1 1 Hu).
Defined.

(** The totals of one zero-output stage. *)
Lemma totals_consistent_witness :
  @feed_forward zero_externals (demo_hp [1%nat] 0) tt demo_mel
  = Ok (one_stage_result, tt) /\
  out_scale_tot one_stage_result
  = t2_map exp (out_log_scale_tot one_stage_result).
Proof.
  split; [exact one_stage_forward|].
  exact (proj1 (@totals_consistent zero_externals _ _ _ _ _
                  one_stage_forward)).
Defined.

(** No stage configured. *)
Lemma feed_forward_without_stages_witness :
  num_iaf_layers (demo_hp [] 0) = [] /\
  exists e, @feed_forward zero_externals (demo_hp [] 0) tt demo_mel = Err e.
Proof.
  split; [reflexivity|].
  exact (@feed_forward_without_stages zero_externals (demo_hp [] 0) tt
           demo_mel eq_refl).
Defined.

(** The forward pass of one zero-output stage returns tensors of shape
    [[1, 1]]. *)
Lemma feed_forward_shapes_witness :
  @shape_contract zero_externals /\
  @feed_forward zero_externals (demo_hp [1%nat] 0) tt demo_mel
  = Ok (one_stage_result, tt) /\
  exists len,
    noise_length (demo_hp [1%nat] 0) (steps demo_mel) = Ok len /\
    shaped2 (batch3 demo_mel) (Z.to_nat len) (out_x one_stage_result).
Proof.
  split; [apply const_shape|]. split; [exact one_stage_forward|].
  destruct (@feed_forward_shapes zero_externals _ _ _ _ _
              (const_shape _ _ _) one_stage_forward)
    as (len & Hlen & _ & Hx & _).
  exists len. split; assumption.
Defined.

(** The only entry of the sample of one zero-output stage. *)
Lemma sample_within_reach_witness :
  @shape_contract zero_externals /\ @uniform_in_range zero_externals /\
  @feed_forward zero_externals (demo_hp [1%nat] 0) tt demo_mel
  = Ok (one_stage_result, tt) /\
  (0 < batch2 (out_x one_stage_result))%nat /\
  (0 < dim1 (out_x one_stage_result))%nat /\
  Rabs (entry (out_x one_stage_result) 0 0
        - entry (out_mean_tot one_stage_result) 0 0)
  <= exp 7 * noise_hi.
Proof.
  assert (Hu : @uniform_in_range zero_externals)
    by (apply const_uniform; lra).
  assert (Hi : (0 < batch2 (out_x one_stage_result))%nat)
    by (unfold batch2, one_stage_result; simpl; lia).
  assert (Hj : (0 < dim1 (out_x one_stage_result))%nat)
    by (unfold one_stage_result; simpl; lia).
  split; [apply const_shape|]. split; [exact Hu|].
  split; [exact one_stage_forward|]. split; [exact Hi|]. split; [exact Hj|].
  exact (proj2 (@sample_within_reach zero_externals _ _ _ _ _ 0 0
                  (const_shape _ _ _) Hu one_stage_forward Hi Hj)).
Defined.

Lemma zero_noise_in_range : noise_range (rows zero_noise_pair).
Proof.
  pose proof noise_hi_positive as Hhi.
  assert (Hlo : noise_lo = - noise_hi) by (unfold noise_lo, noise_hi; lra).
  repeat constructor; lra.
Qed.

(** Zero noise: both samples of the only batch row sit on the mean. *)
Lemma student_samples_reach_witness :
  shaped2 (1 * 2) 1 zero_noise_pair /\ shaped2 1 1 mean_row /\
  shaped2 1 1 scale_row /\ noise_range (rows zero_noise_pair) /\
  Forall (Forall (fun v => 0 <= v)) (rows scale_row) /\
  (0 < 1)%nat /\ (1 < 2)%nat /\ (0 < 1)%nat /\
  Rabs (entry (student_samples zero_noise_pair mean_row scale_row 2) 1 0
        - entry mean_row 0 0)
  <= entry scale_row 0 0 * noise_hi.
Proof.
  assert (H1 : shaped2 (1 * 2) 1 zero_noise_pair)
    by (repeat constructor).
  assert (H2 : shaped2 1 1 mean_row) by (repeat constructor).
  assert (H3 : shaped2 1 1 scale_row) by (repeat constructor).
  assert (H4 : Forall (Forall (fun v => 0 <= v)) (rows scale_row))
    by (repeat constructor; simpl; lra).
  assert (H5 : (0 < 1)%nat) by lia.
  assert (H6 : (1 < 2)%nat) by lia.
  refine (conj H1 (conj H2 (conj H3 (conj zero_noise_in_range
            (conj H4 (conj H5 (conj H6 (conj H5 _)))))))).
  exact (proj2 (@student_samples_reach zero_noise_pair mean_row scale_row
                  1 1 2 0 1 0 H1 H2 H3 zero_noise_in_range H4 H5 H6 H5)).
Defined.

(** One batch row, two Monte-Carlo samples. *)
Lemma cross_entropy_global_mean_witness :
  let hp := demo_hp [1%nat] 1 in
  let rl := fst (@_logistic_0_1 zero_externals tt 2 1) in
  let x_xp := student_samples rl (T2 1 [[5]]) (T2 1 [[7]]) 2 in
  let log_te_probs := @teacher_log_probs zero_externals hp demo_ff x_xp 2 in
  (0 < 1)%nat /\ (0 < 2)%nat /\
  wf2 log_te_probs /\ batch2 log_te_probs = 2%nat /\
  dim1 log_te_probs = 1%nat /\
  exists d st',
    @kl_loss zero_externals hp tt demo_ff 2 = Ok (d, st') /\
    dict_get "H_Ps_Pt" d = Some (- reduce_mean2 (rows log_te_probs)).
Proof.
  intros hp rl x_xp log_te_probs.
  assert (H0 : (0 < 1)%nat) by lia.
  assert (H0' : (0 < 2)%nat) by lia.
  assert (H1 : wf2 log_te_probs) by (repeat constructor).
  assert (H2 : batch2 log_te_probs = 2%nat) by reflexivity.
  assert (H3 : dim1 log_te_probs = 1%nat) by reflexivity.
  refine (conj H0 (conj H0' (conj H1 (conj H2 (conj H3 _))))).
  exact (@cross_entropy_global_mean zero_externals hp tt demo_ff 2
           H0 H0' H0 H1 H2 H3).
Defined.

(** Trimming 1003 samples by 2 and then by 1 is trimming them by 3. *)
Lemma trim_composes_witness :
  wf2 wave_1003 /\ (2 + 1 <= dim1 wave_1003)%nat /\
  (Nat.even 2 = true \/ Nat.even 1 = true) /\
  (y <- _trim wave_1003 (Z.of_nat 2) ;; _trim y (Z.of_nat 1))
  = _trim wave_1003 (Z.of_nat (2 + 1)).
Proof.
  assert (H1 : (2 + 1 <= dim1 wave_1003)%nat) by (simpl; lia).
  assert (H2 : Nat.even 2 = true \/ Nat.even 1 = true) by (left; reflexivity).
  split; [apply wave_wf|]. split; [exact H1|]. split; [exact H2|].
  exact (proj2 (trim_composes wave_1003 2 1 (wave_wf 1003) H1 H2)).
Defined.

Lemma one_stage_zero :
  all3 (fun v => v = 0) (cells (iaf_mean one_stage_dict)) /\
  all3 (fun v => v = 0) (cells (iaf_log_scale one_stage_dict)).
Proof.
  split; repeat constructor. apply clip_zero.
Qed.

(** A zero-output stage leaves the noise [[[1]]] unchanged. *)
Lemma identity_stage_witness :
  @shape_contract zero_externals /\
  shaped3 1 1 1 (expand_dims (T2 1 [[1]])) /\
  @_create_iaf zero_externals (demo_hp [1%nat] 0) demo_mel
    (expand_dims (T2 1 [[1]])) 0 = Ok one_stage_dict /\
  all3 (fun v => v = 0) (cells (iaf_mean one_stage_dict)) /\
  all3 (fun v => v = 0) (cells (iaf_log_scale one_stage_dict)) /\
  iaf_x one_stage_dict = expand_dims (T2 1 [[1]]).
Proof.
  assert (Hx : shaped3 1 1 1 (expand_dims (T2 1 [[1]])))
    by (repeat constructor).
  destruct one_stage_zero as [Hm Hl].
  split; [apply const_shape|]. split; [exact Hx|].
  split; [exact one_stage_create|]. split; [exact Hm|]. split; [exact Hl|].
  exact (proj2 (@identity_stage zero_externals _ _ _ _ _ 1 1
                  (const_shape _ _ _) Hx one_stage_create Hm Hl)).
Defined.
